(** * staticjinja: dependency graph, source classification and reloader

    A shallow embedding of [staticjinja/dep_graph.py],
    [staticjinja/sources.py] and [staticjinja/reloader.py], and of
    [get_rule] and [get_context] of [staticjinja/staticjinja.py].

    Vertices (relative file names) are strings, Python sets of file names
    are [gset string], Python dicts keyed by file names are
    [gmap string _].  Python exceptions are values of [exn]; a call that
    may raise returns a [result].  Methods that mutate [self] in place
    return the object as it is when control leaves the method, also when
    it leaves through an exception: a mutation done before the raise is
    kept, exactly as for the Python object.  Output written with [print]
    is not modelled. *)

From Stdlib Require Import Ascii String.
From stdpp Require Import gmap strings list fin_maps fin_sets relations.

Open Scope string_scope.

Set Warnings "-clear-no-such-hyp".

(** ** Exceptions and results *)

Inductive exn : Type :=
| KeyError (key : string)
| ValueError (msg : string)
| AttributeError (name : string)
| ExternalError (msg : string).

Inductive result (A : Type) : Type :=
| Ok (a : A)
| Raise (e : exn).
Arguments Ok {A} a.
Arguments Raise {A} e.

Definition is_ok {A} (r : result A) : bool :=
  match r with Ok _ => true | Raise _ => false end.

(** Iteration over a Python set visits every member once, in an order
    the language leaves unspecified; [elements] fixes one such order.
    The proofs below use of it only that it lists every member once, and
    the sets iterated in the evaluated examples have at most one
    member. *)
Definition set_iter (s : gset string) : list string := elements s.

(** ** dep_graph.py *)

Module DepGraph.

(** [class DepGraph]: the two attributes set by [__init__]. *)
Record t : Type := mk {
  parents : gmap string (gset string);
  children : gmap string (gset string)
}.

(** [from_parents], first loop: [children[filename] = set()] for every
    key of [parents]. *)
Definition empty_children (parents : gmap string (gset string))
  : gmap string (gset string) :=
  (λ _, ∅) <$> parents.

(** [children[d].add(filename)]: the subscript raises [KeyError] when
    [d] is not a key. *)
Definition add_child (filename d : string)
    (children : gmap string (gset string))
  : result (gmap string (gset string)) :=
  match children !! d with
  | None => Raise (KeyError d)
  | Some s => Ok (<[d := {[filename]} ∪ s]> children)
  end.

(** [children[d].remove(filename)]: the subscript raises [KeyError d]
    when [d] is not a key, and [set.remove] raises [KeyError filename]
    when [filename] is not a member. *)
Definition remove_child (filename d : string)
    (children : gmap string (gset string))
  : result (gmap string (gset string)) :=
  match children !! d with
  | None => Raise (KeyError d)
  | Some s =>
      if decide (filename ∈ s)
      then Ok (<[d := s ∖ {[filename]}]> children)
      else Raise (KeyError filename)
  end.

(** A [for d in ds: body(d)] loop over a dict of sets that is mutated in
    place: the dict reached when the loop ends, together with the
    exception that ended it, if any. *)
Fixpoint for_each
    (body : string → gmap string (gset string) →
            result (gmap string (gset string)))
    (ds : list string) (children : gmap string (gset string))
  : gmap string (gset string) * result () :=
  match ds with
  | [] => (children, Ok ())
  | d :: ds' =>
      match body d children with
      | Raise e => (children, Raise e)
      | Ok children' => for_each body ds' children'
      end
  end.

(** [from_parents], second loop: for every [filename] of [parents] and
    every [d] of [parents[filename]], [children[d].add(filename)]. *)
Fixpoint from_parents_loop
    (items : list (string * gset string))
    (children : gmap string (gset string))
  : gmap string (gset string) * result () :=
  match items with
  | [] => (children, Ok ())
  | (filename, ds) :: items' =>
      match for_each (add_child filename) (set_iter ds) children with
      | (children', Ok _) => from_parents_loop items' children'
      | (children', Raise e) => (children', Raise e)
      end
  end.

(** [DepGraph.from_parents(parents)].  [children] is a local until the
    constructor is called, so nothing of it is left when the loop
    raises. *)
Definition from_parents (parents : gmap string (gset string)) : result t :=
  match from_parents_loop (map_to_list parents) (empty_children parents) with
  | (children, Ok _) => Ok (mk parents children)
  | (_, Raise e) => Raise e
  end.

(** [DepGraph.update(self, filename, new_parents)]. *)
Definition update (self : t) (filename : string) (new_parents : gset string)
  : t * result () :=
  let old_parents := default ∅ (parents self !! filename) in
  if decide (new_parents ≠ old_parents) then
    match for_each (remove_child filename)
            (set_iter (old_parents ∖ new_parents)) (children self) with
    | (children1, Raise e) => (mk (parents self) children1, Raise e)
    | (children1, Ok _) =>
        match for_each (add_child filename)
                (set_iter (new_parents ∖ old_parents)) children1 with
        | (children2, Raise e) => (mk (parents self) children2, Raise e)
        | (children2, Ok _) =>
            (mk (<[filename := new_parents]> (parents self)) children2, Ok ())
        end
    end
  else (self, Ok ()).

(** *** Traversal

    [connected_components] contains [yield], so it is a generator
    function: calling it runs none of its body and returns a generator
    object that holds the arguments; the body, the test of [direction]
    included, runs when the object is iterated. *)
Record generator : Type := Generator {
  gen_self : t;
  gen_direction : string;
  gen_start : string
}.

Definition connected_components (self : t) (direction start : string)
  : result generator :=
  Ok (Generator self direction start).

(** [get_descendants(self, filename)]. *)
Definition get_descendants (self : t) (filename : string) : result generator :=
  connected_components self "descendants" filename.

(** The first statement of the body. *)
Definition select_adjacency (self : t) (direction : string)
  : result (gmap string (gset string)) :=
  if decide (direction = "descendants") then Ok (children self)
  else if decide (direction = "ancestors") then Ok (parents self)
  else Raise (ValueError "direction should be either descendants or ancestors").

(** What a consumer that iterates to the end observes: the vertices
    yielded, in order, and how the iteration ended ([Ok] for exhaustion,
    [Raise] for an exception that reached the consumer). *)
Definition trace : Type := list string * result ().

Definition yield (child : string) (rest : option trace) : option trace :=
  (λ tr, (child :: tr.1, tr.2)) <$> rest.

(** The [while stack:] loop.  An iterator over a set is the list of the
    members it has not produced yet; the stack is a list whose head is
    Python's [stack[-1]].  One unit of [fuel] is one turn of the loop;
    [None] means the fuel ran out. *)
Fixpoint dfs (fuel : nat) (adjacency : gmap string (gset string))
    (seen : gset string) (stack : list (list string)) : option trace :=
  match fuel with
  | 0 => None
  | S fuel' =>
      match stack with
      | [] => Some ([], Ok ())
      | [] :: stack' => dfs fuel' adjacency seen stack'
      | (child :: rest) :: stack' =>
          if decide (child ∈ seen)
          then dfs fuel' adjacency seen (rest :: stack')
          else
            yield child
              match adjacency !! child with
              | None => Some ([], Raise (KeyError child))
              | Some s =>
                  dfs fuel' adjacency ({[child]} ∪ seen)
                    (set_iter s :: rest :: stack')
              end
      end
  end.

(** A number of turns that no run of the loop exceeds
    (see [dfs_enough_fuel]). *)
Definition vertex_weight (adjacency : gmap string (gset string))
    (u : string) : nat :=
  2 + size (adjacency !!! u).

Definition unseen_weight (adjacency : gmap string (gset string))
    (seen : gset string) : nat :=
  sum_list_with (vertex_weight adjacency) (elements (dom adjacency ∖ seen)).

Definition stack_weight (stack : list (list string)) : nat :=
  sum_list_with (λ it, S (length it)) stack.

Definition dfs_fuel (adjacency : gmap string (gset string))
    (seen : gset string) (stack : list (list string)) : nat :=
  S (stack_weight stack + unseen_weight adjacency seen).

(** Iterating a generator to the end. *)
Definition run (gen : generator) : option trace :=
  match select_adjacency (gen_self gen) (gen_direction gen) with
  | Raise e => Some ([], Raise e)
  | Ok adjacency =>
      let seen : gset string := {[gen_start gen]} in
      match adjacency !! gen_start gen with
      | None => Some ([], Raise (KeyError (gen_start gen)))
      | Some s =>
          let stack := [set_iter s] in
          dfs (dfs_fuel adjacency seen stack) adjacency seen stack
      end
  end.

(** *** The invariants of the specification

    [u ∈ parents[v]] is read as false when [v] is not a key. *)
Definition I1 (g : t) : Prop :=
  ∀ u v : string, u ∈ parents g !!! v ↔ v ∈ children g !!! u.

Definition edges_closed (m : gmap string (gset string)) (keys : gset string)
  : Prop :=
  map_Forall (λ _ s, s ⊆ keys) m.

Definition I2 (g : t) : Prop :=
  dom (parents g) = dom (children g) ∧
  edges_closed (parents g) (dom (parents g) ∩ dom (children g)) ∧
  edges_closed (children g) (dom (parents g) ∩ dom (children g)).

(** The graphs that a successful build followed by successful updates
    produces. *)
Inductive built : t → Prop :=
| built_from_parents parents g :
    from_parents parents = Ok g → built g
| built_update g filename new_parents g' :
    built g → update g filename new_parents = (g', Ok ()) → built g'.

(** An executable test of [I1]. *)
Definition inverse_of (m m' : gmap string (gset string)) : bool :=
  bool_decide (map_Forall (λ v s, set_Forall (λ u, v ∈ m' !!! u) s) m).

Definition I1_check (g : t) : bool :=
  inverse_of (parents g) (children g) && inverse_of (children g) (parents g).

(** [v] is reached from [u] by one edge of [adjacency]. *)
Definition edge (adjacency : gmap string (gset string)) (u v : string)
  : Prop :=
  v ∈ adjacency !!! u.

End DepGraph.

(** ** Python strings *)

(** [s.startswith(p)]. *)
Definition startswith (s p : string) : bool := String.prefix p s.

(** [os.path.sep] on a POSIX system. *)
Definition os_path_sep : ascii := "/"%char.

(** [s.split(sep)] for a separator of one character: the segments
    between the occurrences of [sep]; never an empty list. *)
Fixpoint split (s : string) (sep : ascii) : list string :=
  match s with
  | EmptyString => [EmptyString]
  | String c s' =>
      if Ascii.eqb c sep then EmptyString :: split s' sep
      else
        match split s' sep with
        | [] => [String c EmptyString]
        | seg :: segs => String c seg :: segs
        end
  end.

(** A lazily or eagerly produced sequence of file names: a list, a
    generator of the dependency graph, or [filter(f, it)]. *)
Inductive iterable : Type :=
| PyList (l : list string)
| PyGen (gen : DepGraph.generator)
| PyFilter (f : string → bool) (it : iterable).

(** Iterating to the end.  [filter] keeps the items for which [f]
    holds, and an exception of the underlying sequence passes through
    it. *)
Fixpoint iterate (it : iterable) : option DepGraph.trace :=
  match it with
  | PyList l => Some (l, Ok ())
  | PyGen gen => DepGraph.run gen
  | PyFilter f it' => (λ tr, (List.filter f tr.1, tr.2)) <$> iterate it'
  end.

(** ** sources.py *)

Module Sources.

(** [class Sources].  [referenced_templates] stands for what
    [find_jinja_deps] obtains from the Jinja environment [_env] and the
    files on disk at the time of the call (loading and parsing may
    raise); [staticpaths], [datapaths] and [extra_deps] are [None] by
    default; [dep_graph] is an attribute only once [make_dep_graph] has
    run. *)
Record t : Type := mk {
  referenced_templates : string → result (list string);
  searchpath : string;
  staticpaths : option (list string);
  datapaths : option (list string);
  extra_deps : option (gmap string (list string));
  dep_graph : option DepGraph.t
}.

Definition set_dep_graph (self : t) (g : DepGraph.t) : t :=
  mk (referenced_templates self) (searchpath self) (staticpaths self)
     (datapaths self) (extra_deps self) (Some g).

(** The loop [for path in paths: if filename.startswith(path): return True]. *)
Definition any_prefix (paths : list string) (filename : string) : bool :=
  existsb (startswith filename) paths.

Definition is_static (self : t) (filename : string) : bool :=
  match staticpaths self with
  | None => false
  | Some paths => any_prefix paths filename
  end.

Definition is_data (self : t) (filename : string) : bool :=
  match datapaths self with
  | None => false
  | Some paths => any_prefix paths filename
  end.

Definition is_partial (filename : string) : bool :=
  existsb (λ x, startswith x "_") (split filename os_path_sep).

Definition is_ignored (filename : string) : bool :=
  existsb (λ x, startswith x ".") (split filename os_path_sep).

Definition is_template (self : t) (filename : string) : bool :=
  if is_partial filename then false
  else if is_ignored filename then false
  else if is_static self filename then false
  else if is_data self filename then false
  else true.

Definition is_jinja (self : t) (filename : string) : bool :=
  is_partial filename || is_template self filename.

(** [get_dependencies].  Reading [self.dep_graph] raises
    [AttributeError] while the graph has not been made. *)
Definition get_dependencies (self : t) (filename : string) : result iterable :=
  if is_template self filename then Ok (PyList [filename])
  else if is_partial filename || is_data self filename then
    match dep_graph self with
    | None => Raise (AttributeError "dep_graph")
    | Some g =>
        match DepGraph.get_descendants g filename with
        | Ok gen => Ok (PyGen gen)
        | Raise e => Raise e
        end
    end
  else if is_static self filename then Ok (PyList [filename])
  else Ok (PyList []).

Definition find_jinja_deps (self : t) (filename : string)
  : result (list string) :=
  referenced_templates self filename.

(** [get_file_dep].  [if self.extra_deps:] is false for [None] and for
    an empty dict; for the latter [.get(filename, [])] would give [[]]
    as well. *)
Definition get_file_dep (self : t) (filename : string) : result (gset string) :=
  match find_jinja_deps self filename with
  | Raise e => Raise e
  | Ok jinja_deps =>
      let extra_deps :=
        match extra_deps self with
        | None => []
        | Some deps => default [] (deps !! filename)
        end in
      Ok (list_to_set (jinja_deps ++ extra_deps))
  end.

(** [update_dep_graph]: [self.dep_graph.update] is looked up first, then
    the argument [self.get_file_dep(filename)] is evaluated, then
    [update] is called. *)
Definition update_dep_graph (self : t) (filename : string) : t * result () :=
  match dep_graph self with
  | None => (self, Raise (AttributeError "dep_graph"))
  | Some g =>
      match get_file_dep self filename with
      | Raise e => (self, Raise e)
      | Ok new_parents =>
          let '(g', r) := DepGraph.update g filename new_parents in
          (set_dep_graph self g', r)
      end
  end.

(** [self._env.list_templates(filter_func=f)]: the names the loader
    finds under the search path, in the loader's order, that satisfy
    [f].  [listing] stands for what the loader finds at the time of the
    call. *)
Definition list_templates (listing : list string) (filter_func : string → bool)
  : list string :=
  List.filter filter_func listing.

(** The properties [template_names], [jinja_names], [static_names] and
    [data_names]. *)
Definition template_names (self : t) (listing : list string) : list string :=
  list_templates listing (is_template self).

Definition jinja_names (self : t) (listing : list string) : list string :=
  list_templates listing (is_jinja self).

Definition static_names (self : t) (listing : list string) : list string :=
  list_templates listing (is_static self).

Definition data_names (self : t) (listing : list string) : list string :=
  list_templates listing (is_data self).

(** [make_dep_graph], the loop
    [for filename in self.jinja_names: parents[filename] = self.get_file_dep(filename)];
    [parents] is a local, lost when [get_file_dep] raises. *)
Fixpoint collect_file_deps (self : t) (names : list string)
    (parents : gmap string (gset string))
  : result (gmap string (gset string)) :=
  match names with
  | [] => Ok parents
  | filename :: names' =>
      match get_file_dep self filename with
      | Raise e => Raise e
      | Ok deps => collect_file_deps self names' (<[filename := deps]> parents)
      end
  end.

(** [dict((s, set()) for s in names)]. *)
Definition empty_parents (names : list string) : gmap string (gset string) :=
  list_to_map ((λ s, (s, ∅)) <$> names).

(** [make_dep_graph].  The loader is asked for its listing each time
    [jinja_names] or [data_names] is read; the files are taken not to
    change in between.  [self.dep_graph] is assigned last, so [self] is
    as before when anything raises. *)
Definition make_dep_graph (self : t) (listing : list string) : t * result () :=
  let parents :=
    empty_parents (jinja_names self listing ++ data_names self listing) in
  match collect_file_deps self (jinja_names self listing) parents with
  | Raise e => (self, Raise e)
  | Ok parents' =>
      match DepGraph.from_parents parents' with
      | Raise e => (self, Raise e)
      | Ok g => (set_dep_graph self g, Ok ())
      end
  end.

End Sources.

(** ** reloader.py *)

Module Reloader.

(** [class Reloader]: the sources of the site and the site's
    [searchpath]; [isfile] and [relpath] stand for [os.path.isfile] and
    [os.path.relpath] on the file system at the time of the event. *)
Record t : Type := mk {
  sources : Sources.t;
  searchpath : string;
  isfile : string → bool;
  relpath : string → string → string
}.

(** The calls made on the site. *)
Inductive action : Type :=
| CopyStatic (files : list string)
| RenderTemplates (needs_rendering : iterable).

Definition should_handle (self : t) (event_type filename : string) : bool :=
  bool_decide (event_type ∈ ["modified"; "created"]) &&
  startswith filename (searchpath self) &&
  isfile self filename.

(** The last branch of [event_handler]: the changed file is a (maybe
    partial) template or a data file. *)
Definition refresh_and_render (sources : Sources.t) (filename : string)
  : Sources.t * option action * result () :=
  match Sources.update_dep_graph sources filename with
  | (sources', Raise e) => (sources', None, Raise e)
  | (sources', Ok _) =>
      if Sources.is_template sources' filename then
        (sources', Some (RenderTemplates (PyList [filename])), Ok ())
      else
        match Sources.get_dependencies sources' filename with
        | Raise e => (sources', None, Raise e)
        | Ok deps =>
            (sources',
             Some (RenderTemplates
                     (PyFilter (Sources.is_template sources') deps)),
             Ok ())
        end
  end.

(** [event_handler]: the sources after the event, the call made on the
    site, if any, and the exception raised before that call, if any.
    What the call on the site does is outside: whatever [copy_static]
    or [render_templates] raises, the latter also while it iterates the
    lazy sequence it is given, is not part of the third component, nor
    is an exception of [os.path.relpath]. *)
Definition event_handler (self : t) (event_type src_path : string)
  : Sources.t * option action * result () :=
  let filename := relpath self src_path (searchpath self) in
  if should_handle self event_type src_path then
    if Sources.is_static (sources self) filename then
      (sources self, Some (CopyStatic [filename]), Ok ())
    else if Sources.is_ignored filename then
      (sources self, None, Ok ())
    else refresh_and_render (sources self) filename
  else (sources self, None, Ok ()).

End Reloader.

(** ** staticjinja.py *)

Module Site.

(** What [get_context] finds in [self.contexts] beside a regex: a
    dictionary, a function without argument, or a function of the
    template ([inspect.isfunction] and [_has_argument] tell them
    apart).  A function may raise. *)
Inductive context_generator (Template Value : Type) : Type :=
| ContextDict (d : gmap string Value)
| ContextFunction0 (f : () → result (gmap string Value))
| ContextFunction1 (f : Template → result (gmap string Value)).
Arguments ContextDict {Template Value} d.
Arguments ContextFunction0 {Template Value} f.
Arguments ContextFunction1 {Template Value} f.

Section site.
Context {Template Value Rule : Type}.
(** [re.match(regex, name)] as a test, which raises [re.error] for a
    regex that does not compile, and [template.name]. *)
Context (re_match : string → string → result bool) (name : Template → string).

(** [get_rule]: the render function of the first rule whose regex
    matches. *)
Fixpoint get_rule (rules : list (string * Rule)) (template_name : string)
  : result Rule :=
  match rules with
  | [] => Raise (ValueError "no matching rule")
  | (regex, render_func) :: rules' =>
      match re_match regex template_name with
      | Raise e => Raise e
      | Ok true => Ok render_func
      | Ok false => get_rule rules' template_name
      end
  end.

(** The dictionary that one entry of [self.contexts] contributes. *)
Definition generate (gen : context_generator Template Value)
    (template : Template) : result (gmap string Value) :=
  match gen with
  | ContextDict d => Ok d
  | ContextFunction0 f => f ()
  | ContextFunction1 f => f template
  end.

(** [get_context], the loop from the point where [context] holds what
    the entries before [contexts] have put into it.
    [context.update(d)] lets the values of [d] win. *)
Fixpoint get_context_loop
    (contexts : list (string * context_generator Template Value))
    (mergecontexts : bool) (template : Template)
    (context : gmap string Value) : result (gmap string Value) :=
  match contexts with
  | [] => Ok context
  | (regex, context_generator) :: contexts' =>
      match re_match regex (name template) with
      | Raise e => Raise e
      | Ok true =>
          match generate context_generator template with
          | Raise e => Raise e
          | Ok d =>
              if mergecontexts
              then get_context_loop contexts' mergecontexts template
                     (d ∪ context)
              else Ok (d ∪ context)
          end
      | Ok false => get_context_loop contexts' mergecontexts template context
      end
  end.

Definition get_context
    (contexts : list (string * context_generator Template Value))
    (mergecontexts : bool) (template : Template)
  : result (gmap string Value) :=
  get_context_loop contexts mergecontexts template ∅.

End site.

End Site.

(** ** The roles of the specification *)

Inductive role : Type := Partial | Ignored | Static | Data | Template.

(** The role assignment as section 4.2 of the specification words it:
    the first of [is_partial], [is_ignored], [is_static], [is_data] that
    holds, and [Template] when none does. *)
Definition spec_role (s : Sources.t) (path : string) : role :=
  if Sources.is_partial path then Partial
  else if Sources.is_ignored path then Ignored
  else if Sources.is_static s path then Static
  else if Sources.is_data s path then Data
  else Template.

(** The predicate of [sources.py] that stands for each role, and the
    place of the role in the precedence order. *)
Definition holds (s : Sources.t) (path : string) (r : role) : bool :=
  match r with
  | Partial => Sources.is_partial path
  | Ignored => Sources.is_ignored path
  | Static => Sources.is_static s path
  | Data => Sources.is_data s path
  | Template => Sources.is_template s path
  end.

Definition rank (r : role) : nat :=
  match r with
  | Partial => 0
  | Ignored => 1
  | Static => 2
  | Data => 3
  | Template => 4
  end.

(** What section 4.3 of the specification has the reactor do with a file
    of a given role. *)
Inductive treatment : Type := Copy | Drop | Refresh.

Definition spec_treatment (r : role) : treatment :=
  match r with
  | Static => Copy
  | Ignored => Drop
  | Partial | Data | Template => Refresh
  end.

(** What [event_handler] did with a handled file, read off what it
    returns: it called [copy_static]; or it returned at once, without a
    call and without an exception; or it went on to refresh the graph,
    after which it calls [render_templates] or is left by an
    exception. *)
Definition handler_treatment
    (outcome : Sources.t * option Reloader.action * result ()) : treatment :=
  match outcome with
  | (_, Some (Reloader.CopyStatic _), _) => Copy
  | (_, None, Ok _) => Drop
  | (_, Some (Reloader.RenderTemplates _), _) | (_, None, Raise _) => Refresh
  end.

(** ** Sample sites *)

(** Two partials that include each other. *)
Definition two_cycle : DepGraph.t :=
  let m : gmap string (gset string) :=
    <["a" := {["b"]}]> (<["b" := {["a"]}]> ∅) in
  DepGraph.mk m m.

(** [page.html] extends [_mid.html], which extends [_base.html]. *)
Definition chain_parents : gmap string (gset string) :=
  <["_base.html" := ∅]>
  (<["_mid.html" := {["_base.html"]}]>
  (<["page.html" := {["_mid.html"]}]> ∅)).

Definition chain_graph : DepGraph.t :=
  DepGraph.mk chain_parents
    (<["_base.html" := {["_mid.html"]}]>
    (<["_mid.html" := {["page.html"]}]>
    (<["page.html" := ∅]> ∅))).

(** [a] includes [b]. *)
Definition pair_parents : gmap string (gset string) :=
  <["a" := {["b"]}]> (<["b" := ∅]> ∅).

Definition pair_graph : DepGraph.t :=
  DepGraph.mk pair_parents (<["a" := ∅]> (<["b" := {["a"]}]> ∅)).

(** A single file without references. *)
Definition single_parents : gmap string (gset string) := <["a" := ∅]> ∅.

Definition single_graph : DepGraph.t :=
  DepGraph.mk single_parents single_parents.

(** Sources whose files reference nothing, with a static and a data
    directory. *)
Definition site_sources (g : DepGraph.t) : Sources.t :=
  Sources.mk (λ _, Ok []) "/site" (Some ["static"]) (Some ["data"]) None
    (Some g).

(** The same sources when no template can be loaded. *)
Definition broken_sources (g : DepGraph.t) : Sources.t :=
  Sources.mk (λ _, Raise (ExternalError "TemplateSyntaxError")) "/site"
    (Some ["static"]) (Some ["data"]) None (Some g).

(** The graph of the single file [a] after [update('_b', {'a'})]. *)
Definition grown_graph : DepGraph.t :=
  DepGraph.mk (<["_b" := {["a"]}]> single_parents) (<["a" := {["_b"]}]> ∅).

(** [relpath] for a path that lies under [start]. *)
Definition relpath_under (path start : string) : string :=
  substring (S (String.length start)) (String.length path) path.

Definition site_reloader (g : DepGraph.t) : Reloader.t :=
  Reloader.mk (site_sources g) "/site" (λ _, true) relpath_under.

(** [page.html] includes [_gone.html], which is no key. *)
Definition dangling_graph : DepGraph.t :=
  DepGraph.mk (<["page.html" := {["_gone.html"]}]> ∅)
    (<["page.html" := ∅]> ∅).

(** The files of a small site, and sources in which [page.html]
    extends [_base.html]. *)
Definition site_listing : list string :=
  ["_base.html"; "data/info.json"; "page.html"; "static/logo.png"].

Definition page_sources : Sources.t :=
  Sources.mk
    (λ f, Ok (if String.eqb f "page.html" then ["_base.html"] else []))
    "/site" (Some ["static"]) (Some ["data"])
    (Some (<["page.html" := ["data/info.json"]]> ∅)) None.

Definition page_graph : DepGraph.t :=
  DepGraph.mk
    (<["_base.html" := ∅]>
     (<["data/info.json" := ∅]>
      (<["page.html" := {["_base.html"; "data/info.json"]}]> ∅)))
    (<["_base.html" := {["page.html"]}]>
     (<["data/info.json" := {["page.html"]}]>
      (<["page.html" := ∅]> ∅))).

(** The sources of [page_sources] with the built graph, after
    [page.html] has been edited to extend nothing and the declared
    dependencies have been dropped. *)
Definition edited_page_sources : Sources.t :=
  Sources.mk (λ _, Ok []) "/site" (Some ["static"]) (Some ["data"]) None
    (Some page_graph).

(** [re.match] on the regexes used below: one without special
    characters matches the names that start with it, and [(] does not
    compile. *)
Definition literal_match (regex name : string) : result bool :=
  if String.eqb regex "(" then Raise (ExternalError "re.error")
  else Ok (startswith name regex).

(** Contexts of a site: one for every page, one for the blog. *)
Definition site_contexts
  : list (string * Site.context_generator string nat) :=
  [("", Site.ContextDict (<["year" := 2015]> (<["posts" := 0]> ∅)));
   ("blog/", Site.ContextFunction0 (λ _, Ok (<["posts" := 7]> ∅)))].

(** * Properties *)

(** A closed decidable proposition, settled by evaluation. *)
Ltac by_evaluation := apply (bool_decide_unpack _); vm_compute; exact I.

(** ** Strings *)

Lemma startswith_app (p rest : string) : startswith (p +:+ rest) p = true.
Proof.
  unfold startswith. induction p as [|c p IH]; simpl.
  - by destruct rest.
  - destruct (ascii_dec c c); [exact IH | congruence].
Qed.

Lemma startswith_inv (s p : string) :
  startswith s p = true → ∃ rest, s = p +:+ rest.
Proof.
  unfold startswith. revert s. induction p as [|c p IH]; intros s Hs.
  - by exists s.
  - destruct s as [|d s]; simpl in Hs; [done|].
    destruct (ascii_dec c d) as [->|]; [|done].
    destruct (IH _ Hs) as [rest ->]. by exists rest.
Qed.

Lemma any_prefix_spec (paths : list string) (filename : string) :
  Sources.any_prefix paths filename = true ↔
  ∃ p rest, p ∈ paths ∧ filename = p +:+ rest.
Proof.
  unfold Sources.any_prefix. rewrite existsb_exists. split.
  - intros (p & Hin & Hp). apply startswith_inv in Hp as [rest ->].
    exists p, rest. by rewrite list_elem_of_In.
  - intros (p & rest & Hin & ->). exists p.
    split; [by apply list_elem_of_In | apply startswith_app].
Qed.

(** ** Classification *)

(** C10: [is_static] and [is_data] test a plain string prefix of the
    whole relative path: a file name is static (data) exactly when it is
    some configured prefix followed by any string at all, separator or
    not; without configured prefixes nothing is static (data). *)
Theorem is_static_is_data_plain_prefix (s : Sources.t) (filename : string) :
  (Sources.is_static s filename = true ↔
   ∃ p rest, p ∈ default [] (Sources.staticpaths s) ∧ filename = p +:+ rest) ∧
  (Sources.is_data s filename = true ↔
   ∃ p rest, p ∈ default [] (Sources.datapaths s) ∧ filename = p +:+ rest).
Proof.
  unfold Sources.is_static, Sources.is_data. split.
  - destruct (Sources.staticpaths s) as [paths|]; simpl.
    + apply any_prefix_spec.
    + split; [done | intros (p & rest & Hin & _); by apply elem_of_nil in Hin].
  - destruct (Sources.datapaths s) as [paths|]; simpl.
    + apply any_prefix_spec.
    + split; [done | intros (p & rest & Hin & _); by apply elem_of_nil in Hin].
Qed.

Example staticextra_is_static :
  Sources.is_static (site_sources single_graph) "staticextra.png" = true ∧
  Sources.is_data (site_sources single_graph) "database.sqlite" = true.
Proof. split; reflexivity. Qed.

Lemma is_template_spec (s : Sources.t) (path : string) :
  Sources.is_template s path = true ↔
  Sources.is_partial path = false ∧ Sources.is_ignored path = false ∧
  Sources.is_static s path = false ∧ Sources.is_data s path = false.
Proof.
  unfold Sources.is_template.
  destruct (Sources.is_partial path), (Sources.is_ignored path),
    (Sources.is_static s path), (Sources.is_data s path);
    (split; [done | by intros (? & ? & ? & ?)]).
Qed.

Lemma spec_role_first_match (s : Sources.t) (path : string) (r : role) :
  spec_role s path = r ↔
  holds s path r = true ∧ ∀ r', rank r' < rank r → holds s path r' = false.
Proof.
  split.
  - intros <-. unfold spec_role.
    destruct (Sources.is_partial path) eqn:Hp; [|
    destruct (Sources.is_ignored path) eqn:Hi; [|
    destruct (Sources.is_static s path) eqn:Hs; [|
    destruct (Sources.is_data s path) eqn:Hd]]];
      (split; [simpl; first [done | by apply is_template_spec] |
               intros [] ?; simpl in *; first [done | lia]]).
  - intros [Hr Hlt]. unfold spec_role.
    pose proof (Hlt Partial) as H0. pose proof (Hlt Ignored) as H1.
    pose proof (Hlt Static) as H2. pose proof (Hlt Data) as H3.
    destruct r; simpl in *.
    + by rewrite Hr.
    + by rewrite H0, Hr by lia.
    + by rewrite H0, H1, Hr by lia.
    + by rewrite H0, H1, H2, Hr by lia.
    + apply is_template_spec in Hr as (-> & -> & -> & ->). done.
Qed.

Lemma refresh_and_render_treatment (s : Sources.t) (filename : string) :
  handler_treatment (Reloader.refresh_and_render s filename) = Refresh.
Proof.
  unfold Reloader.refresh_and_render.
  destruct (Sources.update_dep_graph s filename) as [s' [[]|e]]; [|done].
  destruct (Sources.is_template s' filename); [done|].
  by destruct (Sources.get_dependencies s' filename).
Qed.

(** What the handler does with a handled file, by the predicates. *)
Lemma event_handler_treatment (rl : Reloader.t) (event_type src_path : string) :
  let s := Reloader.sources rl in
  let path := Reloader.relpath rl src_path (Reloader.searchpath rl) in
  Reloader.should_handle rl event_type src_path = true →
  handler_treatment (Reloader.event_handler rl event_type src_path) =
    if Sources.is_static s path then Copy
    else if Sources.is_ignored path then Drop
    else Refresh.
Proof.
  intros s path Hh. unfold Reloader.event_handler. fold s path. rewrite Hh.
  destruct (Sources.is_static s path); [done|].
  destruct (Sources.is_ignored path); [done|].
  apply refresh_and_render_treatment.
Qed.

(** C5, as the code has it: [is_template] holds exactly when none of
    [is_partial], [is_ignored], [is_static] and [is_data] does, while
    those four may hold together; every path has the one role that
    strict precedence partial > ignored > static > data > template gives
    it, the first whose predicate holds, and a path with a segment that
    starts with [_] has the role partial whatever the prefixes.  The
    reloader does not go by that role: a handled file is copied when
    [is_static] holds, whatever its segments; otherwise it is dropped
    when [is_ignored] holds; otherwise the graph is refreshed.  This is
    what the role asks for exactly when the file is not at once partial
    and static or ignored, nor at once static and ignored. *)
Theorem roles_by_precedence_reactor_by_static_first
    (rl : Reloader.t) (event_type src_path : string) (r : role) :
  let s := Reloader.sources rl in
  let path := Reloader.relpath rl src_path (Reloader.searchpath rl) in
  (Sources.is_template s path = true ↔
   Sources.is_partial path = false ∧ Sources.is_ignored path = false ∧
   Sources.is_static s path = false ∧ Sources.is_data s path = false) ∧
  (spec_role s path = r ↔
   holds s path r = true ∧ ∀ r', rank r' < rank r → holds s path r' = false) ∧
  (Sources.is_partial path = true → spec_role s path = Partial) ∧
  (Reloader.should_handle rl event_type src_path = true →
   Reloader.event_handler rl event_type src_path =
     if Sources.is_static s path then (s, Some (Reloader.CopyStatic [path]), Ok ())
     else if Sources.is_ignored path then (s, None, Ok ())
     else Reloader.refresh_and_render s path) ∧
  (Reloader.should_handle rl event_type src_path = true →
   handler_treatment (Reloader.event_handler rl event_type src_path) =
     (if Sources.is_static s path then Copy
      else if Sources.is_ignored path then Drop
      else Refresh) ∧
   (handler_treatment (Reloader.event_handler rl event_type src_path) =
      spec_treatment (spec_role s path) ↔
    Sources.is_partial path
      && (Sources.is_static s path || Sources.is_ignored path)
    || Sources.is_static s path && Sources.is_ignored path = false)).
Proof.
  intros s path. split; [apply is_template_spec|].
  split; [apply spec_role_first_match|]. split; [|split].
  - intros Hp. unfold spec_role. by rewrite Hp.
  - intros Hh. unfold Reloader.event_handler. by rewrite Hh.
  - intros Hh. pose proof (event_handler_treatment rl event_type src_path Hh)
      as Ht. fold s path in Ht. split; [exact Ht|]. rewrite Ht.
    unfold spec_role.
    destruct (Sources.is_partial path), (Sources.is_ignored path),
      (Sources.is_static s path), (Sources.is_data s path); simpl;
      (split; [done || discriminate | done || discriminate]).
Qed.

Lemma roles_by_precedence_reactor_by_static_first_witness :
  Reloader.should_handle (site_reloader chain_graph) "modified"
    "/site/static/_x.css" = true ∧
  Reloader.event_handler (site_reloader chain_graph) "modified"
    "/site/static/_x.css" =
    (site_sources chain_graph, Some (Reloader.CopyStatic ["static/_x.css"]),
     Ok ()) ∧
  handler_treatment
    (Reloader.event_handler (site_reloader chain_graph) "modified"
       "/site/static/_x.css") = Copy.
Proof.
  split; [reflexivity|].
  pose proof (roles_by_precedence_reactor_by_static_first
                (site_reloader chain_graph) "modified" "/site/static/_x.css"
                Partial) as (_ & _ & _ & H & H').
  split.
  - rewrite H; reflexivity.
  - destruct H' as [Ht _]; [reflexivity|]. rewrite Ht. reflexivity.
Defined.

(** C5 as stated fails: [static/_x.css] has the role partial, for which
    the reactor is to refresh the graph and render, and [event_handler]
    copies it as a static file. *)
Lemma reactor_ignores_partial_precedence :
  spec_role (site_sources chain_graph) "static/_x.css" = Partial ∧
  spec_treatment (spec_role (site_sources chain_graph) "static/_x.css")
    = Refresh ∧
  Reloader.event_handler (site_reloader chain_graph) "modified"
    "/site/static/_x.css" =
    (site_sources chain_graph, Some (Reloader.CopyStatic ["static/_x.css"]),
     Ok ()).
Proof. split; [|split]; reflexivity. Qed.

(** ** Traversal: errors *)

(** C8 as stated fails: the call with an unknown direction raises
    nothing, it returns a generator object. *)
Lemma unknown_direction_call_returns :
  "sideways" ≠ "descendants" ∧ "sideways" ≠ "ancestors" ∧
  DepGraph.connected_components two_cycle "sideways" "a" =
    Ok (DepGraph.Generator two_cycle "sideways" "a").
Proof. split; [|split]; done. Qed.

(** C8, as the code has it: for a direction other than ['descendants']
    and ['ancestors'] the call itself succeeds and returns a generator;
    iterating that generator raises [ValueError] before any vertex is
    yielded.  No direction is taken by default. *)
Theorem unknown_direction_raises_on_iteration
    (g : DepGraph.t) (direction start : string) :
  direction ≠ "descendants" → direction ≠ "ancestors" →
  ∃ gen, DepGraph.connected_components g direction start = Ok gen ∧
    DepGraph.run gen =
      Some ([], Raise (ValueError
                         "direction should be either descendants or ancestors")).
Proof.
  intros Hd Ha. eexists. split; [reflexivity|].
  unfold DepGraph.run, DepGraph.select_adjacency. simpl.
  by rewrite !decide_False.
Qed.

Lemma unknown_direction_raises_on_iteration_witness :
  ∃ gen, DepGraph.connected_components two_cycle "sideways" "a" = Ok gen ∧
    DepGraph.run gen =
      Some ([], Raise (ValueError
                         "direction should be either descendants or ancestors")).
Proof.
  apply (unknown_direction_raises_on_iteration two_cycle "sideways" "a");
    discriminate.
Defined.

(** C9: when [start] is not a key of the mapping that the direction
    selects, the call returns a generator whose iteration raises
    [KeyError start] and yields nothing; for [get_descendants] the
    mapping is [children]. *)
Theorem traversal_of_unknown_start_raises
    (g : DepGraph.t) (direction start : string)
    (adjacency : gmap string (gset string)) :
  DepGraph.select_adjacency g direction = Ok adjacency →
  adjacency !! start = None →
  ∃ gen, DepGraph.connected_components g direction start = Ok gen ∧
    (direction = "descendants" → DepGraph.get_descendants g start = Ok gen) ∧
    DepGraph.run gen = Some ([], Raise (KeyError start)).
Proof.
  intros Hsel Hstart. eexists. split; [reflexivity|]. split.
  - by intros ->.
  - unfold DepGraph.run. simpl. by rewrite Hsel, Hstart.
Qed.

Lemma traversal_of_unknown_start_raises_witness :
  ∃ gen, DepGraph.connected_components two_cycle "descendants" "c" = Ok gen ∧
    ("descendants" = "descendants" →
     DepGraph.get_descendants two_cycle "c" = Ok gen) ∧
    DepGraph.run gen = Some ([], Raise (KeyError "c")).
Proof.
  apply (traversal_of_unknown_start_raises two_cycle "descendants" "c"
           (DepGraph.children two_cycle)); reflexivity.
Defined.

(** ** update *)

Lemma update_skips_equal_parents (g : DepGraph.t) (v : string) (P : gset string) :
  P = default ∅ (DepGraph.parents g !! v) → DepGraph.update g v P = (g, Ok ()).
Proof.
  intros ->. unfold DepGraph.update. by rewrite decide_False by (by intros ?).
Qed.

(** C7: [update(v, P)] with [P] the current parents of [v], the empty
    set when [v] is not a key, changes neither mapping and does not
    raise. *)
Theorem update_with_current_parents_is_noop (g : DepGraph.t) (v : string) :
  DepGraph.update g v (default ∅ (DepGraph.parents g !! v)) = (g, Ok ()).
Proof. by apply update_skips_equal_parents. Qed.

(** Membership in [m[u]], false when [u] is not a key. *)
Lemma elem_of_lookup_total (m : gmap string (gset string)) (u w : string) :
  w ∈ m !!! u ↔ ∃ s, m !! u = Some s ∧ w ∈ s.
Proof.
  rewrite lookup_total_alt. destruct (m !! u) as [s|]; simpl.
  - split; [by exists s | by intros (? & [= <-] & ?)].
  - split; [by intros ?%not_elem_of_empty | by intros (? & ? & ?)].
Qed.

Lemma elem_of_lookup_total_dom (m : gmap string (gset string)) (u w : string) :
  w ∈ m !!! u → u ∈ dom m.
Proof.
  rewrite elem_of_lookup_total, elem_of_dom. intros (s & -> & _). by exists s.
Qed.

Lemma I1_check_sound (g : DepGraph.t) : DepGraph.I1_check g = true → DepGraph.I1 g.
Proof.
  unfold DepGraph.I1_check, DepGraph.inverse_of.
  intros [Hpc Hcp]%andb_true_iff u v.
  apply bool_decide_eq_true in Hpc, Hcp.
  rewrite !elem_of_lookup_total. split.
  - intros (s & Hs & Hu). apply elem_of_lookup_total.
    exact (map_Forall_lookup_1 _ _ _ _ Hpc Hs u Hu).
  - intros (s & Hs & Hv). apply elem_of_lookup_total.
    exact (map_Forall_lookup_1 _ _ _ _ Hcp Hs v Hv).
Qed.

Lemma old_parents_total (g : DepGraph.t) (v : string) :
  default ∅ (DepGraph.parents g !! v) = DepGraph.parents g !!! v.
Proof. by rewrite lookup_total_alt. Qed.

Section loops.
Context (filename : string).
Implicit Types (children : gmap string (gset string)) (ds : list string).

Lemma add_child_ok d children children' :
  DepGraph.add_child filename d children = Ok children' →
  d ∈ dom children ∧ dom children' = dom children ∧
  ∀ u w, w ∈ children' !!! u ↔ (w = filename ∧ u = d) ∨ w ∈ children !!! u.
Proof.
  unfold DepGraph.add_child. destruct (children !! d) as [s|] eqn:Hd; [|done].
  intros [= <-]. split; [by apply elem_of_dom|]. split.
  - apply dom_insert_lookup_L. by exists s.
  - intros u w. destruct (decide (u = d)) as [->|Hne].
    + rewrite lookup_total_insert_eq, (lookup_total_correct _ _ _ Hd).
      set_solver.
    + rewrite lookup_total_insert_ne by done. naive_solver.
Qed.

Lemma add_child_raise d children e :
  DepGraph.add_child filename d children = Raise e →
  (d ∉ dom children) ∧ e = KeyError d.
Proof.
  unfold DepGraph.add_child. destruct (children !! d) eqn:Hd; [done|].
  intros [= <-]. split; [by apply not_elem_of_dom | done].
Qed.

Lemma remove_child_ok d children children' :
  DepGraph.remove_child filename d children = Ok children' →
  filename ∈ children !!! d ∧ dom children' = dom children ∧
  ∀ u w, w ∈ children' !!! u ↔
         w ∈ children !!! u ∧ ¬ (w = filename ∧ u = d).
Proof.
  unfold DepGraph.remove_child.
  destruct (children !! d) as [s|] eqn:Hd; [|done].
  case_decide as Hin; [|done]. intros [= <-].
  rewrite (lookup_total_correct _ _ _ Hd). split; [done|]. split.
  - apply dom_insert_lookup_L. by exists s.
  - intros u w. destruct (decide (u = d)) as [->|Hne].
    + rewrite lookup_total_insert_eq, (lookup_total_correct _ _ _ Hd).
      set_solver.
    + rewrite lookup_total_insert_ne by done. naive_solver.
Qed.

Lemma remove_child_raise d children e :
  DepGraph.remove_child filename d children = Raise e →
  filename ∉ children !!! d.
Proof.
  unfold DepGraph.remove_child. rewrite elem_of_lookup_total.
  destruct (children !! d) as [s|] eqn:Hd.
  - case_decide; [done|]. intros _ (? & [= <-] & ?). done.
  - intros _ (? & ? & ?). done.
Qed.

(** The loop over the added parents. *)
Lemma for_each_add ds children children' r :
  DepGraph.for_each (DepGraph.add_child filename) ds children
    = (children', r) →
  dom children' = dom children ∧
  (∀ u w, w ≠ filename → (w ∈ children' !!! u ↔ w ∈ children !!! u)) ∧
  match r with
  | Ok _ =>
      (∀ d, d ∈ ds → d ∈ dom children) ∧
      (∀ u, filename ∈ children' !!! u ↔
            u ∈ ds ∨ filename ∈ children !!! u)
  | Raise e => ∃ d, d ∈ ds ∧ (d ∉ dom children) ∧ e = KeyError d
  end.
Proof.
  revert children. induction ds as [|d ds IH]; intros children; simpl.
  - intros [= <- <-]. split; [done|]. split; [done|].
    split; [by intros ? ?%elem_of_nil | set_solver].
  - destruct (DepGraph.add_child filename d children) as [c1|e] eqn:Hadd.
    + apply add_child_ok in Hadd as (Hd & Hdom & Hmem).
      intros (Hdom' & Hother & Hr)%IH. rewrite Hdom in Hdom', Hr.
      split; [done|]. split.
      { intros u w Hw. rewrite Hother, Hmem by done. naive_solver. }
      destruct r as [[]|e].
      * destruct Hr as [Hall Hf]. split.
        { intros d' [->|?]%elem_of_cons; auto. }
        intros u. rewrite Hf, Hmem, elem_of_cons. naive_solver.
      * destruct Hr as (d' & ? & ? & ->). exists d'.
        split; [by apply elem_of_cons; right | done].
    + apply add_child_raise in Hadd as [Hd ->]. intros [= <- <-].
      split; [done|]. split; [done|]. exists d.
      split; [by apply elem_of_cons; left | done].
Qed.

(** The loop over the lost parents. *)
Lemma for_each_remove ds children children' r :
  NoDup ds →
  DepGraph.for_each (DepGraph.remove_child filename) ds children
    = (children', r) →
  dom children' = dom children ∧
  (∀ u w, w ≠ filename → (w ∈ children' !!! u ↔ w ∈ children !!! u)) ∧
  match r with
  | Ok _ =>
      (∀ d, d ∈ ds → filename ∈ children !!! d) ∧
      (∀ u, filename ∈ children' !!! u ↔
            filename ∈ children !!! u ∧ u ∉ ds)
  | Raise e => ∃ d, d ∈ ds ∧ filename ∉ children !!! d
  end.
Proof.
  intros Hnd. revert children.
  induction Hnd as [|d ds Hd Hnd IH]; intros children; simpl.
  - intros [= <- <-]. split; [done|]. split; [done|].
    split; [by intros ? ?%elem_of_nil | set_solver].
  - destruct (DepGraph.remove_child filename d children) as [c1|e] eqn:Hrm.
    + apply remove_child_ok in Hrm as (Hin & Hdom & Hmem).
      intros (Hdom' & Hother & Hr)%IH. rewrite Hdom in Hdom'.
      split; [done|]. split.
      { intros u w Hw. rewrite Hother, Hmem by done. naive_solver. }
      destruct r as [[]|e].
      * destruct Hr as [Hall Hf]. split.
        { intros d' [->|Hd']%elem_of_cons; [done|].
          apply Hall, Hmem in Hd'. tauto. }
        intros u. rewrite Hf, Hmem, elem_of_cons. naive_solver.
      * destruct Hr as (d' & Hd' & Hnot). exists d'.
        split; [by apply elem_of_cons; right|].
        rewrite Hmem in Hnot. intros ?. apply Hnot. split; [done|].
        intros [_ ->]. done.
    + apply remove_child_raise in Hrm. intros [= <- <-].
      split; [done|]. split; [done|]. exists d.
      split; [by apply elem_of_cons; left | done].
Qed.
End loops.

(** What a successful [update] that has something to do leaves. *)
Lemma update_ok (g g' : DepGraph.t) (v : string) (P : gset string) :
  let old := default ∅ (DepGraph.parents g !! v) in
  P ≠ old →
  DepGraph.update g v P = (g', Ok ()) →
  DepGraph.parents g' = <[v := P]> (DepGraph.parents g) ∧
  dom (DepGraph.children g') = dom (DepGraph.children g) ∧
  (∀ u w, w ≠ v →
     (w ∈ DepGraph.children g' !!! u ↔ w ∈ DepGraph.children g !!! u)) ∧
  (∀ u, u ∈ old ∖ P → v ∈ DepGraph.children g !!! u) ∧
  (∀ u, u ∈ P ∖ old → u ∈ dom (DepGraph.children g)) ∧
  (∀ u, v ∈ DepGraph.children g' !!! u ↔
        u ∈ P ∖ old ∨ (v ∈ DepGraph.children g !!! u ∧ u ∉ old ∖ P)).
Proof.
  intros old Hne. unfold DepGraph.update. fold old.
  rewrite decide_True by done.
  destruct (DepGraph.for_each (DepGraph.remove_child v) _ _)
    as [c1 [[]|e1]] eqn:Hrm; [|done].
  destruct (DepGraph.for_each (DepGraph.add_child v) _ _)
    as [c2 [[]|e2]] eqn:Hadd; [|done].
  intros [= <-]. simpl.
  apply for_each_remove in Hrm as (Hdom1 & Hoth1 & Hall1 & Hmem1);
    [|apply NoDup_elements].
  apply for_each_add in Hadd as (Hdom2 & Hoth2 & Hall2 & Hmem2).
  unfold set_iter in *. setoid_rewrite elem_of_elements in Hall1.
  setoid_rewrite elem_of_elements in Hall2.
  setoid_rewrite elem_of_elements in Hmem1.
  setoid_rewrite elem_of_elements in Hmem2.
  split; [done|]. split; [congruence|]. split.
  { intros u w Hw. by rewrite Hoth2, Hoth1. }
  split; [done|]. split; [by rewrite <-Hdom1|].
  intros u. by rewrite Hmem2, Hmem1.
Qed.

(** What a failed [update] leaves. *)
Lemma update_raise (g g' : DepGraph.t) (v : string) (P : gset string) (e : exn) :
  DepGraph.update g v P = (g', Raise e) →
  DepGraph.parents g' = DepGraph.parents g ∧
  dom (DepGraph.children g') = dom (DepGraph.children g) ∧
  (∀ u w, w ≠ v →
     (w ∈ DepGraph.children g' !!! u ↔ w ∈ DepGraph.children g !!! u)).
Proof.
  unfold DepGraph.update. case_decide; [|done].
  destruct (DepGraph.for_each (DepGraph.remove_child v) _ _)
    as [c1 r1] eqn:Hrm.
  apply for_each_remove in Hrm as (Hdom1 & Hoth1 & _); [|apply NoDup_elements].
  destruct r1 as [[]|e1]; [|by intros [= <- <-]].
  destruct (DepGraph.for_each (DepGraph.add_child v) _ _)
    as [c2 r2] eqn:Hadd.
  apply for_each_add in Hadd as (Hdom2 & Hoth2 & _).
  destruct r2 as [[]|e2]; [done|]. intros [= <- <-]. simpl.
  split; [done|]. split; [congruence|].
  intros u w Hw. by rewrite Hoth2, Hoth1.
Qed.

(** When [update] succeeds. *)
Lemma update_ok_iff (g : DepGraph.t) (v : string) (P : gset string) :
  let old := default ∅ (DepGraph.parents g !! v) in
  (DepGraph.update g v P).2 = Ok () ↔
  P = old ∨
  ((∀ u, u ∈ old ∖ P → v ∈ DepGraph.children g !!! u) ∧
   (∀ u, u ∈ P ∖ old → u ∈ dom (DepGraph.children g))).
Proof.
  intros old. destruct (decide (P = old)) as [->|Hne].
  { rewrite update_skips_equal_parents by done. naive_solver. }
  split.
  - destruct (DepGraph.update g v P) as [g' r] eqn:Hup. simpl. intros ->.
    right. by apply (update_ok g g' v P Hne) in Hup as (_ & _ & _ & ? & ? & _).
  - intros [?|[Hlost Hnew]]; [done|].
    unfold DepGraph.update. fold old. rewrite decide_True by done.
    destruct (DepGraph.for_each (DepGraph.remove_child v) _ _)
      as [c1 r1] eqn:Hrm.
    apply for_each_remove in Hrm as (Hdom1 & _ & Hr1); [|apply NoDup_elements].
    destruct r1 as [[]|e1].
    + destruct (DepGraph.for_each (DepGraph.add_child v) _ _)
        as [c2 r2] eqn:Hadd.
      apply for_each_add in Hadd as (_ & _ & Hr2).
      destruct r2 as [[]|e2]; [done|].
      destruct Hr2 as (d & Hd%elem_of_elements & Hnot & _).
      rewrite Hdom1 in Hnot. by apply Hnew in Hd.
    + destruct Hr1 as (d & Hd%elem_of_elements & Hnot). by apply Hlost in Hd.
Qed.

Lemma remove_child_raise_exact (filename d : string)
    (children : gmap string (gset string)) (e : exn) :
  DepGraph.remove_child filename d children = Raise e →
  ((d ∉ dom children) ∧ e = KeyError d) ∨
  (d ∈ dom children ∧ (filename ∉ children !!! d) ∧ e = KeyError filename).
Proof.
  unfold DepGraph.remove_child.
  destruct (children !! d) as [s|] eqn:Hd.
  - case_decide as Hin; [done|]. intros [= <-]. right.
    split; [apply elem_of_dom; by exists s|].
    by rewrite (lookup_total_correct _ _ _ Hd).
  - intros [= <-]. left. split; [by apply not_elem_of_dom | done].
Qed.

(** The loop over the lost parents raises [KeyError]: for a lost parent
    that is no key, or for [filename] where it is no member. *)
Lemma for_each_remove_raise (filename : string) (ds : list string)
    (children children' : gmap string (gset string)) (e : exn) :
  NoDup ds →
  DepGraph.for_each (DepGraph.remove_child filename) ds children
    = (children', Raise e) →
  ∃ d, d ∈ ds ∧
    (((d ∉ dom children) ∧ e = KeyError d) ∨
     (d ∈ dom children ∧ (filename ∉ children !!! d) ∧ e = KeyError filename)).
Proof.
  intros Hnd. revert children.
  induction Hnd as [|d ds Hd Hnd IH]; intros children; simpl; [done|].
  destruct (DepGraph.remove_child filename d children) as [c1|e1] eqn:Hrm.
  - apply remove_child_ok in Hrm as (_ & Hdom & Hmem).
    intros (d' & Hd' & Hcase)%IH. exists d'. split; [by right|].
    rewrite Hdom in Hcase. destruct Hcase as [?|(? & Hnot & ?)]; [by left|].
    right. split; [done|]. split; [|done].
    intros Hin. apply Hnot, Hmem. split; [done|]. intros [_ ->]. done.
  - intros [= <- <-]. exists d. split; [by left|].
    by apply remove_child_raise_exact.
Qed.


(** [update] adds no key to [children], whatever its outcome, and no
    key but [v] to [parents]. *)
Lemma update_keys (g : DepGraph.t) (v : string) (P : gset string) :
  dom (DepGraph.children (DepGraph.update g v P).1) = dom (DepGraph.children g) ∧
  dom (DepGraph.parents (DepGraph.update g v P).1)
    ⊆ {[v]} ∪ dom (DepGraph.parents g).
Proof.
  destruct (DepGraph.update g v P) as [g' [[]|e]] eqn:Hup; simpl.
  - destruct (decide (P = default ∅ (DepGraph.parents g !! v))) as [Heq|Hne].
    + rewrite update_skips_equal_parents in Hup by done.
      injection Hup as <-. split; [done | set_solver].
    + apply update_ok in Hup as (-> & -> & _); [|done].
      split; [done|]. rewrite dom_insert_L. set_solver.
  - apply update_raise in Hup as (-> & -> & _). split; [done | set_solver].
Qed.

(** How [update] raises: always with [KeyError], for a lost parent that
    is no key of [children], for [v] where a lost parent does not hold
    it, or for an added parent that is no key of [children]. *)
Lemma update_raise_key_error (g g' : DepGraph.t) (v : string)
    (P : gset string) (e : exn) :
  let old := default ∅ (DepGraph.parents g !! v) in
  DepGraph.update g v P = (g', Raise e) →
  (∃ d, d ∈ old ∖ P ∧
     (((d ∉ dom (DepGraph.children g)) ∧ e = KeyError d) ∨
      (d ∈ dom (DepGraph.children g) ∧
       (v ∉ DepGraph.children g !!! d) ∧ e = KeyError v))) ∨
  (∃ d, d ∈ P ∖ old ∧ (d ∉ dom (DepGraph.children g)) ∧ e = KeyError d).
Proof.
  intros old. unfold DepGraph.update. fold old. case_decide; [|done].
  destruct (DepGraph.for_each (DepGraph.remove_child v) _ _)
    as [c1 [[]|e1]] eqn:Hrm.
  - apply for_each_remove in Hrm as (Hdom1 & _); [|apply NoDup_elements].
    destruct (DepGraph.for_each (DepGraph.add_child v) _ _)
      as [c2 [[]|e2]] eqn:Hadd; [done|].
    apply for_each_add in Hadd as (_ & _ & d & Hd%elem_of_elements & Hnot & ->).
    intros [= <- <-]. right. exists d. by rewrite <-Hdom1.
  - apply for_each_remove_raise in Hrm as (d & Hd%elem_of_elements & Hcase);
      [|apply NoDup_elements].
    intros [= <- <-]. left. by exists d.
Qed.


(** C1 as stated fails: [b] is a key of neither mapping, and
    [update('a', {'b'})] raises [KeyError] instead of creating it. *)
Lemma update_unseen_parent_raises :
  DepGraph.parents single_graph !! "b" = None ∧
  DepGraph.children single_graph !! "b" = None ∧
  DepGraph.update single_graph "a" {["b"]} =
    (single_graph, Raise (KeyError "b")).
Proof. split; [|split]; reflexivity. Qed.

(** C1, as the code has it: [update] creates no entry for a vertex named
    in [new_parents]: whatever its outcome, [children] has the keys it
    had and [parents] gains no key but [v].  It succeeds exactly when
    [new_parents] equals the old parents of [v], or [v] is a member of
    [children[u]] for every lost parent [u] and every added parent is
    already a key of [children]; [parents[v]] is then [new_parents].
    When it fails, it fails with [KeyError]: for a lost parent that is
    no key of [children] or for [v] where a lost parent does not hold
    it, or else for an added parent that is no key of [children].  An
    unseen [v] is tolerated, its old parents being the empty set: the
    update succeeds exactly when every member of [new_parents] is a key
    of [children], and otherwise raises [KeyError] for a member that is
    none. *)
Theorem update_succeeds_iff (g : DepGraph.t) (v : string) (P : gset string) :
  let old := default ∅ (DepGraph.parents g !! v) in
  ((DepGraph.update g v P).2 = Ok () ↔
   P = old ∨
   ((∀ u, u ∈ old ∖ P → v ∈ DepGraph.children g !!! u) ∧
    (∀ u, u ∈ P ∖ old → u ∈ dom (DepGraph.children g)))) ∧
  (DepGraph.parents g !! v = None →
   ((DepGraph.update g v P).2 = Ok () ↔ P ⊆ dom (DepGraph.children g))) ∧
  ((DepGraph.update g v P).2 = Ok () →
   DepGraph.parents (DepGraph.update g v P).1 !!! v = P) ∧
  (dom (DepGraph.children (DepGraph.update g v P).1)
     = dom (DepGraph.children g) ∧
   dom (DepGraph.parents (DepGraph.update g v P).1)
     ⊆ {[v]} ∪ dom (DepGraph.parents g)) ∧
  (∀ e, (DepGraph.update g v P).2 = Raise e →
     (∃ d, d ∈ old ∖ P ∧
        (((d ∉ dom (DepGraph.children g)) ∧ e = KeyError d) ∨
         (d ∈ dom (DepGraph.children g) ∧
          (v ∉ DepGraph.children g !!! d) ∧ e = KeyError v))) ∨
     (∃ d, d ∈ P ∖ old ∧ (d ∉ dom (DepGraph.children g)) ∧ e = KeyError d)) ∧
  (DepGraph.parents g !! v = None →
   ∀ e, (DepGraph.update g v P).2 = Raise e →
        ∃ d, d ∈ P ∧ (d ∉ dom (DepGraph.children g)) ∧ e = KeyError d).
Proof.
  intros old.
  assert (∀ e, (DepGraph.update g v P).2 = Raise e →
     (∃ d, d ∈ old ∖ P ∧
        (((d ∉ dom (DepGraph.children g)) ∧ e = KeyError d) ∨
         (d ∈ dom (DepGraph.children g) ∧
          (v ∉ DepGraph.children g !!! d) ∧ e = KeyError v))) ∨
     (∃ d, d ∈ P ∖ old ∧ (d ∉ dom (DepGraph.children g)) ∧ e = KeyError d))
    as Hraise.
  { intros e. destruct (DepGraph.update g v P) as [g' r] eqn:Hup. simpl.
    intros ->. by apply (update_raise_key_error g g' v P e). }
  split; [apply update_ok_iff|]. split; [|split; [|split; [|split]]].
  - intros Hv. rewrite update_ok_iff. rewrite Hv. simpl. set_solver.
  - destruct (decide (P = old)) as [Heq|Hne].
    + rewrite update_skips_equal_parents by done. simpl. intros _.
      by rewrite lookup_total_alt.
    + destruct (DepGraph.update g v P) as [g' r] eqn:Hup. simpl. intros ->.
      apply (update_ok g g' v P Hne) in Hup as (-> & _).
      apply lookup_total_insert_eq.
  - apply update_keys.
  - done.
  - intros Hv e He. unfold old in Hraise. rewrite Hv in Hraise. simpl in Hraise.
    destruct (Hraise e He) as [(d & Hd & _)|(d & Hd & Hnot & ->)].
    + by apply elem_of_difference in Hd as [?%not_elem_of_empty _].
    + exists d. apply elem_of_difference in Hd as [? _]. done.
Qed.

Lemma update_succeeds_iff_witness :
  ((DepGraph.update single_graph "_b" {["a"]}).2 = Ok () ∧
   DepGraph.parents (DepGraph.update single_graph "_b" {["a"]}).1 !!! "_b"
     = {["a"]}) ∧
  ∃ d, d ∈ ({["b"]} : gset string) ∧
       (d ∉ dom (DepGraph.children single_graph)) ∧
       KeyError "b" = KeyError d.
Proof.
  split.
  - destruct (update_succeeds_iff single_graph "_b" {["a"]})
      as (_ & Hiff & Hp & _).
    assert ((DepGraph.update single_graph "_b" {["a"]}).2 = Ok ()) as Hok.
    { apply Hiff; [reflexivity|]. by vm_compute. }
    split; [exact Hok | exact (Hp Hok)].
  - destruct (update_succeeds_iff single_graph "_c" {["b"]})
      as (_ & _ & _ & _ & _ & Hraise).
    apply (Hraise eq_refl (KeyError "b")). vm_compute. reflexivity.
Defined.




(** ** Traversal: the loop *)

Section traversal.
Context (adjacency : gmap string (gset string)).
Implicit Types (seen : gset string) (stack : list (list string)).
Implicit Types (tr : DepGraph.trace).

Lemma yield_Some child (rest : option DepGraph.trace) tr :
  DepGraph.yield child rest = Some tr →
  ∃ tr', rest = Some tr' ∧ tr = (child :: tr'.1, tr'.2).
Proof.
  unfold DepGraph.yield. destruct rest as [tr'|]; [|done].
  intros [= <-]. by exists tr'.
Qed.

(** Induction over the turns of the loop. *)
Lemma dfs_ind (Q : gset string → list (list string) → DepGraph.trace → Prop) :
  (∀ seen, Q seen [] ([], Ok ())) →
  (∀ seen stack tr, Q seen stack tr → Q seen ([] :: stack) tr) →
  (∀ seen child rest stack tr,
     child ∈ seen → Q seen (rest :: stack) tr →
     Q seen ((child :: rest) :: stack) tr) →
  (∀ seen child rest stack,
     child ∉ seen → adjacency !! child = None →
     Q seen ((child :: rest) :: stack) ([child], Raise (KeyError child))) →
  (∀ seen child rest stack s tr,
     child ∉ seen → adjacency !! child = Some s →
     Q ({[child]} ∪ seen) (set_iter s :: rest :: stack) tr →
     Q seen ((child :: rest) :: stack) (child :: tr.1, tr.2)) →
  ∀ fuel seen stack tr,
    DepGraph.dfs fuel adjacency seen stack = Some tr → Q seen stack tr.
Proof.
  intros Hnil Hpop Hseen Hkey Hpush.
  induction fuel as [|fuel IH]; intros seen stack tr; simpl; [done|].
  destruct stack as [|[|child rest] stack].
  - intros [= <-]. apply Hnil.
  - intros ?%IH. by apply Hpop.
  - case_decide as Hin.
    + intros ?%IH. by apply Hseen.
    + intros (tr' & Hrest & ->)%yield_Some.
      destruct (adjacency !! child) as [s|] eqn:Hchild.
      * apply IH in Hrest. by eapply Hpush.
      * injection Hrest as <-. by apply Hkey.
Qed.

Lemma unseen_weight_add seen child :
  child ∈ dom adjacency → child ∉ seen →
  DepGraph.unseen_weight adjacency seen =
  DepGraph.vertex_weight adjacency child +
  DepGraph.unseen_weight adjacency ({[child]} ∪ seen).
Proof.
  intros Hdom Hnot. unfold DepGraph.unseen_weight.
  set (X := dom adjacency ∖ ({[child]} ∪ seen)).
  assert (dom adjacency ∖ seen = {[child]} ∪ X) as ->.
  { apply set_eq. intros x. destruct (decide (x = child)); set_solver. }
  rewrite elements_disj_union by set_solver.
  rewrite sum_list_with_app, elements_singleton. simpl. lia.
Qed.

(** The loop ends: [dfs_fuel] turns are enough in every state. *)
Lemma dfs_enough_fuel (fuel : nat) seen stack :
  (DepGraph.dfs_fuel adjacency seen stack ≤ fuel)%nat →
  is_Some (DepGraph.dfs fuel adjacency seen stack).
Proof.
  unfold DepGraph.dfs_fuel. revert seen stack.
  induction fuel as [|fuel IH]; intros seen stack Hfuel; [lia|]. simpl.
  destruct stack as [|[|child rest] stack]; [done|..].
  - apply IH. simpl in *. lia.
  - case_decide as Hin.
    + apply IH. simpl in *. lia.
    + destruct (adjacency !! child) as [s|] eqn:Hchild; [|done].
      assert (is_Some (DepGraph.dfs fuel adjacency ({[child]} ∪ seen)
                         (set_iter s :: rest :: stack))) as [tr ->]; [|done].
      apply IH.
      rewrite (unseen_weight_add seen child) in Hfuel;
        [|by apply elem_of_dom|done].
      unfold DepGraph.vertex_weight in Hfuel.
      rewrite (lookup_total_correct _ _ _ Hchild) in Hfuel.
      unfold DepGraph.stack_weight, set_iter in *. simpl in *.
      change (length (elements s)) with (size s). lia.
Qed.

(** Every vertex is yielded at most once, and none that was seen. *)
Lemma dfs_NoDup fuel seen stack tr :
  DepGraph.dfs fuel adjacency seen stack = Some tr →
  NoDup tr.1 ∧ ∀ v, v ∈ tr.1 → v ∉ seen.
Proof.
  revert fuel seen stack tr.
  apply (dfs_ind (λ seen stack tr, NoDup tr.1 ∧ ∀ v, v ∈ tr.1 → v ∉ seen));
    simpl.
  - intros seen. split; [constructor | by intros ? ?%elem_of_nil].
  - done.
  - done.
  - intros seen child rest stack Hnot _. split.
    + apply NoDup_singleton.
    + by intros v ->%list_elem_of_singleton.
  - intros seen child rest stack s tr Hnot _ [Hnd Hfresh]. split.
    + constructor; [|done]. intros ?%Hfresh. set_solver.
    + intros v [->|?%Hfresh]%elem_of_cons; set_solver.
Qed.

(** Every vertex yielded is reached from a vertex on the stack. *)
Lemma dfs_sound fuel seen stack tr :
  DepGraph.dfs fuel adjacency seen stack = Some tr →
  ∀ v, v ∈ tr.1 →
    ∃ it c, it ∈ stack ∧ c ∈ it ∧ rtc (DepGraph.edge adjacency) c v.
Proof.
  revert fuel seen stack tr.
  apply (dfs_ind (λ seen stack tr, ∀ v, v ∈ tr.1 →
    ∃ it c, it ∈ stack ∧ c ∈ it ∧ rtc (DepGraph.edge adjacency) c v)); simpl.
  - by intros ? ? ?%elem_of_nil.
  - intros seen stack tr IH v (it & c & ? & ? & ?)%IH.
    exists it, c. split; [by apply elem_of_cons; right | done].
  - intros seen child rest stack tr _ IH v (it & c & Hit & Hc & Hreach)%IH.
    apply elem_of_cons in Hit as [->|Hit].
    + exists (child :: rest), c. set_solver.
    + exists it, c. set_solver.
  - intros seen child rest stack _ _ v ->%list_elem_of_singleton.
    exists (child :: rest), child. set_solver.
  - intros seen child rest stack s tr _ Hchild IH v [->|Hv]%elem_of_cons.
    { exists (child :: rest), child. set_solver. }
    apply IH in Hv as (it & c & Hit & Hc & Hreach).
    apply elem_of_cons in Hit as [->|[->|Hit]%elem_of_cons].
    + exists (child :: rest), child. split; [set_solver|].
      split; [set_solver|]. eapply rtc_l; [|done].
      unfold DepGraph.edge. rewrite (lookup_total_correct _ _ _ Hchild).
      by apply elem_of_elements.
    + exists (child :: rest), c. set_solver.
    + exists it, c. set_solver.
Qed.

(** Nothing is left behind: when every child of a seen vertex is seen
    or waits on the stack, the vertices seen at the end are closed
    under [adjacency] and include all that waited on the stack. *)
Lemma dfs_complete fuel seen stack tr :
  DepGraph.dfs fuel adjacency seen stack = Some tr →
  tr.2 = Ok () →
  (∀ x c, x ∈ seen → DepGraph.edge adjacency x c →
     c ∈ seen ∨ ∃ it, it ∈ stack ∧ c ∈ it) →
  (∀ x c, x ∈ seen ∪ list_to_set tr.1 → DepGraph.edge adjacency x c →
     c ∈ seen ∪ list_to_set tr.1) ∧
  (∀ it c, it ∈ stack → c ∈ it → c ∈ seen ∪ list_to_set tr.1).
Proof.
  revert fuel seen stack tr.
  apply (dfs_ind (λ seen stack tr,
    tr.2 = Ok () →
    (∀ x c, x ∈ seen → DepGraph.edge adjacency x c →
       c ∈ seen ∨ ∃ it, it ∈ stack ∧ c ∈ it) →
    (∀ x c, x ∈ seen ∪ list_to_set tr.1 → DepGraph.edge adjacency x c →
       c ∈ seen ∪ list_to_set tr.1) ∧
    (∀ it c, it ∈ stack → c ∈ it → c ∈ seen ∪ list_to_set tr.1))); simpl.
  - intros seen _ Hinv. split; [|by intros ? ? ?%elem_of_nil].
    intros x c Hx Hedge. rewrite union_empty_r_L in Hx |- *.
    destruct (Hinv x c Hx Hedge) as [?|(it & ?%elem_of_nil & _)]; done.
  - intros seen stack tr IH Hok Hinv.
    destruct IH as [Hclosed Hstack]; [done| |].
    { intros x c Hx Hedge.
      destruct (Hinv x c Hx Hedge) as [?|(it & Hit & Hc)]; [by left|].
      apply elem_of_cons in Hit as [->|Hit]; [by apply elem_of_nil in Hc|].
      right. by exists it. }
    split; [done|].
    intros it c [->|Hit]%elem_of_cons Hc; [by apply elem_of_nil in Hc|].
    by eapply Hstack.
  - intros seen child rest stack tr Hin IH Hok Hinv.
    destruct IH as [Hclosed Hstack]; [done| |].
    { intros x c Hx Hedge.
      destruct (Hinv x c Hx Hedge) as [?|(it & Hit & Hc)]; [by left|].
      apply elem_of_cons in Hit as [->|Hit].
      - apply elem_of_cons in Hc as [->|Hc]; [by left|].
        right. exists rest. set_solver.
      - right. exists it. set_solver. }
    split; [done|].
    intros it c [->|Hit]%elem_of_cons Hc.
    + apply elem_of_cons in Hc as [->|Hc]; [set_solver|].
      apply (Hstack rest); set_solver.
    + apply (Hstack it); set_solver.
  - done.
  - intros seen child rest stack s tr Hnot Hchild IH Hok Hinv.
    assert (seen ∪ ({[child]} ∪ list_to_set tr.1) =
            ({[child]} ∪ seen) ∪ list_to_set tr.1) as -> by set_solver.
    destruct IH as [Hclosed Hstack]; [done| |].
    { intros x c Hx Hedge. apply elem_of_union in Hx as [Hx|Hx].
      - apply elem_of_singleton in Hx as ->. right. exists (set_iter s).
        split; [set_solver|]. apply elem_of_elements.
        unfold DepGraph.edge in Hedge.
        by rewrite (lookup_total_correct _ _ _ Hchild) in Hedge.
      - destruct (Hinv x c Hx Hedge) as [?|(it & Hit & Hc)]; [set_solver|].
        apply elem_of_cons in Hit as [->|Hit].
        + apply elem_of_cons in Hc as [->|Hc]; [set_solver|].
          right. exists rest. set_solver.
        + right. exists it. set_solver. }
    split; [done|].
    intros it c [->|Hit]%elem_of_cons Hc.
    + apply elem_of_cons in Hc as [->|Hc]; [set_solver|].
      apply (Hstack rest); set_solver.
    + apply (Hstack it); set_solver.
Qed.

(** No [KeyError]: when every vertex on the stack and every vertex of
    an edge set is a key, the loop ends by exhaustion. *)
Lemma dfs_no_error fuel seen stack tr :
  DepGraph.edges_closed adjacency (dom adjacency) →
  DepGraph.dfs fuel adjacency seen stack = Some tr →
  (∀ it c, it ∈ stack → c ∈ it → c ∈ dom adjacency) →
  tr.2 = Ok ().
Proof.
  intros Hclosed. revert fuel seen stack tr.
  apply (dfs_ind (λ seen stack tr,
    (∀ it c, it ∈ stack → c ∈ it → c ∈ dom adjacency) → tr.2 = Ok ()));
    simpl.
  - done.
  - intros seen stack tr IH Hkeys. apply IH.
    intros it c ? ?. apply (Hkeys it); set_solver.
  - intros seen child rest stack tr _ IH Hkeys. apply IH.
    intros it c [->|?]%elem_of_cons ?.
    + apply (Hkeys (child :: rest)); set_solver.
    + apply (Hkeys it); set_solver.
  - intros seen child rest stack _ Hnone Hkeys.
    apply not_elem_of_dom in Hnone. destruct Hnone.
    apply (Hkeys (child :: rest)); set_solver.
  - intros seen child rest stack s tr _ Hchild IH Hkeys. apply IH.
    intros it c [->|[->|?]%elem_of_cons]%elem_of_cons Hc.
    + apply elem_of_elements in Hc.
      by apply (map_Forall_lookup_1 _ _ _ _ Hclosed Hchild).
    + apply (Hkeys (child :: rest)); set_solver.
    + apply (Hkeys it); set_solver.
Qed.
End traversal.

(** ** Traversal: what a generator yields *)

Lemma I2_children_closed (g : DepGraph.t) :
  DepGraph.I2 g →
  DepGraph.edges_closed (DepGraph.children g) (dom (DepGraph.children g)).
Proof.
  intros (_ & _ & Hc). unfold DepGraph.edges_closed in *.
  eapply map_Forall_impl; [exact Hc|]. simpl. set_solver.
Qed.

(** A traversal from a key of a closed adjacency mapping ends by
    exhaustion and yields, once each, the vertices other than [start]
    that are reachable from [start]. *)
Lemma run_spec (g : DepGraph.t) (direction start : string)
    (adjacency : gmap string (gset string)) :
  DepGraph.select_adjacency g direction = Ok adjacency →
  DepGraph.edges_closed adjacency (dom adjacency) →
  start ∈ dom adjacency →
  ∃ l, DepGraph.run (DepGraph.Generator g direction start) = Some (l, Ok ()) ∧
       NoDup l ∧
       ∀ v, v ∈ l ↔ v ≠ start ∧ rtc (DepGraph.edge adjacency) start v.
Proof.
  intros Hsel Hclosed [s Hs]%elem_of_dom.
  unfold DepGraph.run.
  cbn [DepGraph.gen_self DepGraph.gen_direction DepGraph.gen_start].
  rewrite Hsel, Hs.
  destruct (dfs_enough_fuel adjacency
              (DepGraph.dfs_fuel adjacency {[start]} [set_iter s])
              {[start]} [set_iter s]) as [[l r] Hdfs]; [done|].
  rewrite Hdfs.
  assert (r = Ok ()) as ->.
  { apply (dfs_no_error _ _ _ _ _ Hclosed Hdfs).
    intros it c ->%list_elem_of_singleton Hc%elem_of_elements.
    by apply (map_Forall_lookup_1 _ _ _ _ Hclosed Hs). }
  exists l. split; [done|].
  destruct (dfs_NoDup _ _ _ _ _ Hdfs) as [Hnd Hfresh]. split; [done|].
  intros v. split.
  - intros Hv. split; [specialize (Hfresh v Hv); set_solver|].
    destruct (dfs_sound _ _ _ _ _ Hdfs v Hv) as (it & c & Hit & Hc & Hreach).
    apply list_elem_of_singleton in Hit as ->. apply elem_of_elements in Hc.
    eapply rtc_l; [|done]. unfold DepGraph.edge.
    by rewrite (lookup_total_correct _ _ _ Hs).
  - intros [Hne Hreach].
    destruct (dfs_complete _ _ _ _ _ Hdfs eq_refl) as [Hcl _].
    { intros x c ->%elem_of_singleton Hedge. right. exists (set_iter s).
      split; [set_solver|]. apply elem_of_elements.
      unfold DepGraph.edge in Hedge.
      by rewrite (lookup_total_correct _ _ _ Hs) in Hedge. }
    simpl in Hcl.
    assert (v ∈ ({[start]} : gset string) ∪ list_to_set l) as Hin.
    { clear Hne. revert v Hreach.
      apply (rtc_ind_r (R := DepGraph.edge adjacency)
               (λ v, v ∈ ({[start]} : gset string) ∪ list_to_set l));
        [set_solver|].
      intros y z _ Hyz IH. exact (Hcl y z IH Hyz). }
    set_solver.
Qed.

(** Iterating a generator always ends, whatever the graph. *)
Lemma run_total (gen : DepGraph.generator) : is_Some (DepGraph.run gen).
Proof.
  unfold DepGraph.run.
  destruct (DepGraph.select_adjacency _ _) as [adjacency|e]; [|done].
  destruct (adjacency !! DepGraph.gen_start gen) as [s|]; [|done].
  by apply dfs_enough_fuel.
Qed.

(** C4: in a graph that satisfies I1 and I2, the descendants of a key
    [start] are a finite sequence that ends by exhaustion and holds,
    once each, exactly the vertices other than [start] that are
    reachable from [start] along [children] edges, cycles and self-loops
    included. *)
Theorem get_descendants_yields_reachable (g : DepGraph.t) (start : string) :
  DepGraph.I1 g → DepGraph.I2 g → start ∈ dom (DepGraph.children g) →
  ∃ gen l,
    DepGraph.get_descendants g start = Ok gen ∧
    DepGraph.run gen = Some (l, Ok ()) ∧
    NoDup l ∧
    ∀ v, v ∈ l ↔
         v ≠ start ∧ rtc (DepGraph.edge (DepGraph.children g)) start v.
Proof.
  intros _ HI2 Hstart. eexists. 
  destruct (run_spec g "descendants" start (DepGraph.children g))
    as (l & Hrun & Hnd & Hl); [done | by apply I2_children_closed | done |].
  exists l. split; [reflexivity|]. done.
Qed.

Lemma two_cycle_I1 : DepGraph.I1 two_cycle.
Proof. apply I1_check_sound. vm_compute. reflexivity. Defined.

Lemma two_cycle_I2 : DepGraph.I2 two_cycle.
Proof.
  split; [reflexivity|].
  split; by_evaluation.
Defined.

Lemma get_descendants_yields_reachable_witness :
  ∃ gen l,
    DepGraph.get_descendants two_cycle "a" = Ok gen ∧
    DepGraph.run gen = Some (l, Ok ()) ∧
    NoDup l ∧
    ∀ v, v ∈ l ↔
         v ≠ "a" ∧ rtc (DepGraph.edge (DepGraph.children two_cycle)) "a" v.
Proof.
  apply (get_descendants_yields_reachable two_cycle "a").
  - exact two_cycle_I1.
  - exact two_cycle_I2.
  - by_evaluation.
Defined.

Example two_cycle_descendants :
  DepGraph.run (DepGraph.Generator two_cycle "descendants" "a")
    = Some (["b"], Ok ()) ∧
  DepGraph.run (DepGraph.Generator two_cycle "descendants" "b")
    = Some (["a"], Ok ()).
Proof. split; vm_compute; reflexivity. Qed.

(** ** What must be rendered *)

(** C6 as stated fails: for the partial [_base.html],
    [get_dependencies] yields the partial [_mid.html] along with the
    template [page.html]; filtered to templates the answer would be
    [page.html] alone. *)
Lemma get_dependencies_yields_partials :
  Sources.is_partial "_base.html" = true ∧
  match Sources.get_dependencies (site_sources chain_graph) "_base.html" with
  | Ok deps => iterate deps
  | Raise _ => None
  end = Some (["_mid.html"; "page.html"], Ok ()) ∧
  Sources.is_template (site_sources chain_graph) "_mid.html" = false ∧
  List.filter (Sources.is_template (site_sources chain_graph))
    ["_mid.html"; "page.html"] = ["page.html"].
Proof. split; [|split; [|split]]; vm_compute; reflexivity. Qed.

(** C6, as the code has it: [get_dependencies] returns the singleton of
    the path for a template; else, for a partial or a data file, the
    descendants of the path in the graph, all of them whatever their
    role; else the singleton of the path for a static file; else the
    empty list.  The filter to templates is not part of it: the
    reloader applies [filter(is_template, ...)] to what it returns. *)
Theorem get_dependencies_by_case (s : Sources.t) (g : DepGraph.t) (path : string) :
  Sources.dep_graph s = Some g →
  (Sources.is_template s path = true →
   Sources.get_dependencies s path = Ok (PyList [path])) ∧
  (Sources.is_template s path = false →
   Sources.is_partial path || Sources.is_data s path = true →
   ∃ gen,
     DepGraph.get_descendants g path = Ok gen ∧
     Sources.get_dependencies s path = Ok (PyGen gen) ∧
     (DepGraph.edges_closed (DepGraph.children g) (dom (DepGraph.children g)) →
      path ∈ dom (DepGraph.children g) →
      ∃ l, iterate (PyGen gen) = Some (l, Ok ()) ∧ NoDup l ∧
           (∀ v, v ∈ l ↔
                 v ≠ path ∧
                 rtc (DepGraph.edge (DepGraph.children g)) path v) ∧
           iterate (PyFilter (Sources.is_template s) (PyGen gen)) =
             Some (List.filter (Sources.is_template s) l, Ok ()))) ∧
  (Sources.is_template s path = false →
   Sources.is_partial path || Sources.is_data s path = false →
   Sources.get_dependencies s path =
     Ok (PyList (if Sources.is_static s path then [path] else []))) ∧
  (∀ s', Sources.update_dep_graph s path = (s', Ok ()) →
         Sources.is_template s' path = false →
         Reloader.refresh_and_render s path =
           match Sources.get_dependencies s' path with
           | Raise e => (s', None, Raise e)
           | Ok deps =>
               (s',
                Some (Reloader.RenderTemplates
                        (PyFilter (Sources.is_template s') deps)),
                Ok ())
           end).
Proof.
  intros Hg. split; [|split; [|split]].
  - unfold Sources.get_dependencies. by intros ->.
  - unfold Sources.get_dependencies. rewrite Hg. intros -> ->.
    eexists. split; [reflexivity|]. split; [reflexivity|].
    intros Hclosed Hpath.
    destruct (run_spec g "descendants" path (DepGraph.children g))
      as (l & Hrun & Hnd & Hl); [done..|].
    exists l. simpl. rewrite Hrun. done.
  - unfold Sources.get_dependencies. intros -> ->.
    by destruct (Sources.is_static s path).
  - intros s' Hup Htpl. unfold Reloader.refresh_and_render.
    by rewrite Hup, Htpl.
Qed.

Lemma get_dependencies_by_case_witness :
  ∃ gen,
    Sources.get_dependencies (site_sources chain_graph) "_base.html"
      = Ok (PyGen gen) ∧
    ∃ l, iterate (PyGen gen) = Some (l, Ok ()) ∧
         iterate (PyFilter (Sources.is_template (site_sources chain_graph))
                    (PyGen gen)) =
           Some (List.filter (Sources.is_template (site_sources chain_graph)) l,
                 Ok ()).
Proof.
  destruct (get_dependencies_by_case (site_sources chain_graph) chain_graph
              "_base.html") as (_ & H & _); [reflexivity|].
  destruct H as (gen & _ & Hdeps & Hrun); [reflexivity | reflexivity |].
  exists gen. split; [exact Hdeps|].
  destruct Hrun as (l & Hl & _ & _ & Hfilter).
  - by_evaluation.
  - by_evaluation.
  - exists l. split; [exact Hl | exact Hfilter].
Defined.

(** ** The invariants across build and update *)

Lemma edges_closed_alt (m : gmap string (gset string)) (keys : gset string) :
  DepGraph.edges_closed m keys ↔ ∀ u w, w ∈ m !!! u → w ∈ keys.
Proof.
  unfold DepGraph.edges_closed. rewrite map_Forall_lookup. split.
  - intros H u w (s & Hs & Hw)%elem_of_lookup_total. by apply (H u s).
  - intros H u s Hs w Hw. apply (H u w), elem_of_lookup_total. by exists s.
Qed.

Lemma from_parents_loop_ok (items : list (string * gset string))
    (children children' : gmap string (gset string)) :
  DepGraph.from_parents_loop items children = (children', Ok ()) →
  dom children' = dom children ∧
  (∀ w s u, (w, s) ∈ items → u ∈ s → u ∈ dom children) ∧
  (∀ u w, w ∈ children' !!! u ↔
          w ∈ children !!! u ∨ ∃ s, (w, s) ∈ items ∧ u ∈ s).
Proof.
  revert children. induction items as [|[f ds] items IH]; intros children; simpl.
  - intros [= <-]. split; [done|].
    split; [by intros ? ? ? ?%elem_of_nil|].
    intros u w. split; [by left|].
    by intros [?|(s & ?%elem_of_nil & _)].
  - destruct (DepGraph.for_each (DepGraph.add_child f) (set_iter ds) children)
      as [c1 [[]|e]] eqn:Hadd; [|done].
    apply for_each_add in Hadd as (Hdom1 & Hoth & Hall & Hmem).
    intros (Hdom & Hkeys & Hin)%IH. rewrite Hdom1 in Hdom, Hkeys.
    split; [done|]. split.
    + intros w s u [[= -> ->]|Hws]%elem_of_cons Hu.
      * by apply Hall, elem_of_elements.
      * by apply (Hkeys w s).
    + intros u w. rewrite Hin. setoid_rewrite elem_of_cons.
      destruct (decide (w = f)) as [->|Hne].
      * rewrite Hmem. unfold set_iter. rewrite elem_of_elements. naive_solver.
      * rewrite Hoth by done. naive_solver.
Qed.

(** A successful build gives a graph that satisfies I1 and I2. *)
Lemma from_parents_invariants (parents : gmap string (gset string))
    (g : DepGraph.t) :
  DepGraph.from_parents parents = Ok g →
  DepGraph.parents g = parents ∧ DepGraph.I1 g ∧ DepGraph.I2 g.
Proof.
  unfold DepGraph.from_parents.
  destruct (DepGraph.from_parents_loop _ _) as [children [[]|e]] eqn:Hloop;
    [|done].
  intros [= <-]. simpl.
  apply from_parents_loop_ok in Hloop as (Hdom & Hkeys & Hin).
  unfold DepGraph.empty_children in *. rewrite dom_fmap_L in Hdom, Hkeys.
  assert (∀ u w, w ∈ children !!! u ↔ u ∈ parents !!! w) as Hinv.
  { intros u w. rewrite Hin, (elem_of_lookup_total parents).
    setoid_rewrite elem_of_map_to_list. split; [|by right].
    intros [(s & Hs & Hw)%elem_of_lookup_total|?]; [|done].
    rewrite lookup_fmap in Hs. destruct (parents !! u); simplify_eq/=.
    set_solver. }
  split; [done|]. split; [|split; [done|split]].
  - intros u v. simpl. by rewrite Hinv.
  - simpl. apply edges_closed_alt. intros u w (s & Hs & Hw)%elem_of_lookup_total.
    rewrite Hdom. apply elem_of_intersection. split.
    + apply (Hkeys u s w); [by apply elem_of_map_to_list | done].
    + apply (Hkeys u s w); [by apply elem_of_map_to_list | done].
  - simpl. apply edges_closed_alt. intros u w Hw%Hinv.
    rewrite Hdom. apply elem_of_intersection.
    split; by apply (elem_of_lookup_total_dom parents w u).
Qed.

(** A successful update keeps I1. *)
Lemma update_preserves_I1 (g g' : DepGraph.t) (v : string) (P : gset string) :
  DepGraph.I1 g → DepGraph.update g v P = (g', Ok ()) → DepGraph.I1 g'.
Proof.
  intros HI1 Hup.
  destruct (decide (P = default ∅ (DepGraph.parents g !! v))) as [Heq|Hne].
  { rewrite update_skips_equal_parents in Hup by done. by injection Hup as <-. }
  apply update_ok in Hup as (Hp & _ & Hoth & _ & _ & Hmem); [|done].
  rewrite old_parents_total in Hmem.
  intros u w. rewrite Hp. destruct (decide (w = v)) as [->|Hw].
  - rewrite lookup_total_insert_eq, Hmem, <-(HI1 u v).
    generalize (DepGraph.parents g !!! v). intros old.
    rewrite !elem_of_difference.
    destruct (decide (u ∈ old)), (decide (u ∈ P)); tauto.
  - rewrite lookup_total_insert_ne, Hoth by done. apply HI1.
Qed.

(** A successful update of a vertex that is already a key keeps I2. *)
Lemma update_preserves_I2 (g g' : DepGraph.t) (v : string) (P : gset string) :
  DepGraph.I2 g → v ∈ dom (DepGraph.parents g) →
  DepGraph.update g v P = (g', Ok ()) → DepGraph.I2 g'.
Proof.
  intros HI2 Hv Hup.
  destruct (decide (P = default ∅ (DepGraph.parents g !! v))) as [Heq|Hne].
  { rewrite update_skips_equal_parents in Hup by done. by injection Hup as <-. }
  apply update_ok in Hup as (Hp & Hdom & Hoth & _ & Hnew & Hmem); [|done].
  rewrite old_parents_total in Hnew.
  destruct HI2 as (Hkeys & Hpc & Hcc).
  rewrite edges_closed_alt in Hpc, Hcc.
  assert (dom (DepGraph.parents g') = dom (DepGraph.parents g)) as Hdomp.
  { rewrite Hp. apply dom_insert_lookup_L. by apply elem_of_dom. }
  unfold DepGraph.I2. rewrite !edges_closed_alt, Hdomp, Hdom.
  split; [done|]. split.
  - intros u w. rewrite Hp. destruct (decide (u = v)) as [->|Hu].
    + rewrite lookup_total_insert_eq. intros Hw.
      destruct (decide (w ∈ DepGraph.parents g !!! v)) as [Hold|Hold].
      * by apply (Hpc v w).
      * assert (w ∈ dom (DepGraph.children g)) as Hwc
          by (apply Hnew, elem_of_difference; done).
        apply elem_of_intersection. by rewrite Hkeys.
    + rewrite lookup_total_insert_ne by done. apply Hpc.
  - intros u w. destruct (decide (w = v)) as [->|Hw].
    + intros _. apply elem_of_intersection. by rewrite <-Hkeys.
    + rewrite Hoth by done. apply Hcc.
Qed.

(** Every graph that build and update produce satisfies I1, and its
    [children] has no key that [parents] lacks. *)
Lemma built_I1 (g : DepGraph.t) :
  DepGraph.built g →
  DepGraph.I1 g ∧ dom (DepGraph.children g) ⊆ dom (DepGraph.parents g).
Proof.
  induction 1 as [parents g Hg|g v P g' _ [HI1 Hsub] Hup].
  - apply from_parents_invariants in Hg as (_ & HI1 & Hdom & _).
    split; [done | by rewrite Hdom].
  - split; [by eapply update_preserves_I1|].
    destruct (decide (P = default ∅ (DepGraph.parents g !! v))) as [Heq|Hne].
    { rewrite update_skips_equal_parents in Hup by done.
      by injection Hup as <-. }
    apply update_ok in Hup as (-> & -> & _); [|done].
    rewrite dom_insert_L. set_solver.
Qed.

(** C3 fails on the code: the build from the single file [a] succeeds,
    [update('_b', {'a'})] then succeeds and leaves a graph that
    satisfies I1 and violates I2, [_b] being a key of [parents], a
    member of [children['a']] and no key of [children]; iterating the
    descendants of [_b] then raises [KeyError]. *)
Theorem update_of_unseen_vertex_breaks_I2 :
  DepGraph.from_parents single_parents = Ok single_graph ∧
  DepGraph.update single_graph "_b" {["a"]} = (grown_graph, Ok ()) ∧
  DepGraph.built grown_graph ∧
  DepGraph.I1 grown_graph ∧
  ¬ DepGraph.I2 grown_graph ∧
  "_b" ∈ dom (DepGraph.parents grown_graph) ∧
  "_b" ∈ DepGraph.children grown_graph !!! "a" ∧
  ("_b" ∉ dom (DepGraph.children grown_graph)) ∧
  DepGraph.run (DepGraph.Generator grown_graph "descendants" "_b")
    = Some ([], Raise (KeyError "_b")).
Proof.
  assert ("_b" ∈ dom (DepGraph.parents grown_graph)) as Hp
    by by_evaluation.
  assert ("_b" ∉ dom (DepGraph.children grown_graph)) as Hc
    by by_evaluation.
  assert (DepGraph.from_parents single_parents = Ok single_graph) as Hbuild
    by (vm_compute; reflexivity).
  assert (DepGraph.update single_graph "_b" {["a"]} = (grown_graph, Ok ()))
    as Hupdate by (vm_compute; reflexivity).
  split; [done|]. split; [done|].
  split; [eapply DepGraph.built_update;
            [by eapply DepGraph.built_from_parents | done]|].
  split; [apply I1_check_sound; vm_compute; reflexivity|].
  split; [intros (Hdom & _); by rewrite Hdom in Hp|].
  split; [done|].
  split; [by_evaluation|].
  split; [done | vm_compute; reflexivity].
Qed.


(** * Further properties of the code *)

(** ** from_parents *)

Lemma from_parents_loop_raise (items : list (string * gset string))
    (children children' : gmap string (gset string)) (e : exn) :
  DepGraph.from_parents_loop items children = (children', Raise e) →
  ∃ w s d, (w, s) ∈ items ∧ d ∈ s ∧ (d ∉ dom children) ∧ e = KeyError d.
Proof.
  revert children. induction items as [|[f ds] items IH]; intros children; simpl.
  - done.
  - destruct (DepGraph.for_each (DepGraph.add_child f) (set_iter ds) children)
      as [c1 [[]|e1]] eqn:Hadd.
    + apply for_each_add in Hadd as (Hdom1 & _).
      intros (w & s & d & Hin & Hd & Hnot & ->)%IH. rewrite Hdom1 in Hnot.
      exists w, s, d. split; [by apply elem_of_cons; right | done].
    + apply for_each_add in Hadd as (_ & _ & d & Hd%elem_of_elements & Hnot & ->).
      intros [= <- <-]. exists f, ds, d.
      split; [by apply elem_of_cons; left | done].
Qed.

(** The build keeps [parents] as given and derives a [children] with the
    same keys; the graph built satisfies I1 and I2. *)
Theorem from_parents_builds_consistent_graph
    (parents : gmap string (gset string)) (g : DepGraph.t) :
  DepGraph.from_parents parents = Ok g →
  DepGraph.parents g = parents ∧
  dom (DepGraph.children g) = dom parents ∧
  DepGraph.I1 g ∧ DepGraph.I2 g.
Proof.
  intros Hg. destruct (from_parents_invariants _ _ Hg) as (Hp & HI1 & HI2).
  split; [done|]. split; [|done].
  destruct HI2 as (Hdom & _). by rewrite <-Hdom, Hp.
Qed.

Lemma from_parents_builds_consistent_graph_witness :
  DepGraph.parents pair_graph = pair_parents ∧
  dom (DepGraph.children pair_graph) = dom pair_parents ∧
  DepGraph.I1 pair_graph ∧ DepGraph.I2 pair_graph.
Proof.
  apply (from_parents_builds_consistent_graph pair_parents pair_graph).
  vm_compute. reflexivity.
Defined.

Lemma from_parents_raise (parents : gmap string (gset string)) (e : exn) :
  DepGraph.from_parents parents = Raise e →
  ∃ w d, d ∈ parents !!! w ∧ (d ∉ dom parents) ∧ e = KeyError d.
Proof.
  unfold DepGraph.from_parents.
  destruct (DepGraph.from_parents_loop _ _) as [children [[]|e']] eqn:Hloop;
    [done|].
  intros [= <-].
  apply from_parents_loop_raise
    in Hloop as (w & s & d & Hin%elem_of_map_to_list & Hd & Hnot & ->).
  unfold DepGraph.empty_children in Hnot. rewrite dom_fmap_L in Hnot.
  exists w, d. split; [|done]. apply elem_of_lookup_total. by exists s.
Qed.

Lemma from_parents_ok_iff (parents : gmap string (gset string)) :
  is_ok (DepGraph.from_parents parents) = true ↔
  DepGraph.edges_closed parents (dom parents).
Proof.
  split.
  - destruct (DepGraph.from_parents parents) as [g|e] eqn:Hg; [|done].
    intros _. apply from_parents_invariants in Hg as (<- & _ & _ & Hc & _).
    eapply map_Forall_impl; [exact Hc|]. simpl. set_solver.
  - intros Hclosed.
    destruct (DepGraph.from_parents parents) as [g|e] eqn:Hg; [done|].
    destruct (from_parents_raise _ _ Hg) as (w & d & Hd & Hnot & _).
    rewrite edges_closed_alt in Hclosed. by apply Hclosed in Hd.
Qed.

(** The build succeeds exactly when every file named in an edge set is
    itself a key of [parents]; otherwise it raises [KeyError] for a
    named file that is no key. *)
Theorem from_parents_succeeds_iff (parents : gmap string (gset string)) :
  (is_ok (DepGraph.from_parents parents) = true ↔
   DepGraph.edges_closed parents (dom parents)) ∧
  (∀ e, DepGraph.from_parents parents = Raise e →
        ∃ w d, d ∈ parents !!! w ∧ (d ∉ dom parents) ∧ e = KeyError d).
Proof. split; [apply from_parents_ok_iff | apply from_parents_raise]. Qed.

Lemma from_parents_succeeds_iff_witness :
  ∃ w d, d ∈ DepGraph.parents dangling_graph !!! w ∧
         (d ∉ dom (DepGraph.parents dangling_graph)) ∧
         KeyError "_gone.html" = KeyError d.
Proof.
  destruct (from_parents_succeeds_iff (DepGraph.parents dangling_graph))
    as [_ H].
  apply (H (KeyError "_gone.html")). vm_compute. reflexivity.
Defined.

(** ** update on a consistent graph *)

(** Two dicts of sets with the same keys and the same members are the
    same dict. *)
Lemma children_ext (m1 m2 : gmap string (gset string)) :
  dom m1 = dom m2 →
  (∀ u w, w ∈ m1 !!! u ↔ w ∈ m2 !!! u) →
  m1 = m2.
Proof.
  intros Hdom Hmem. apply map_eq. intros u.
  destruct (m1 !! u) as [s1|] eqn:H1.
  - assert (is_Some (m2 !! u)) as [s2 H2].
    { apply elem_of_dom. rewrite <-Hdom. by apply elem_of_dom. }
    rewrite H2. f_equal. apply set_eq. intros w.
    specialize (Hmem u w).
    by rewrite (lookup_total_correct _ _ _ H1),
      (lookup_total_correct _ _ _ H2) in Hmem.
  - symmetry. apply not_elem_of_dom. rewrite <-Hdom. by apply not_elem_of_dom.
Qed.

(** On a graph that satisfies I1, a successful update of a key [v]
    leaves [children] with [v] exactly under the members of [P]. *)
Lemma update_ok_known (g g' : DepGraph.t) (v : string) (P : gset string) :
  DepGraph.I1 g → v ∈ dom (DepGraph.parents g) →
  DepGraph.update g v P = (g', Ok ()) →
  DepGraph.parents g' = <[v := P]> (DepGraph.parents g) ∧
  dom (DepGraph.children g') = dom (DepGraph.children g) ∧
  (∀ u w, w ∈ DepGraph.children g' !!! u ↔
          if decide (w = v) then u ∈ P else w ∈ DepGraph.children g !!! u).
Proof.
  intros HI1 [old Hold]%elem_of_dom Hup.
  destruct (decide (P = default ∅ (DepGraph.parents g !! v))) as [Heq|Hne].
  - rewrite update_skips_equal_parents in Hup by done. injection Hup as <-.
    rewrite Hold in Heq. simpl in Heq. subst P.
    split; [by rewrite insert_id|]. split; [done|].
    intros u w. case_decide as Hw; [|done]. subst w.
    by rewrite <-(HI1 u v), (lookup_total_correct _ _ _ Hold).
  - apply update_ok in Hup as (Hp & Hdom & Hoth & _ & _ & Hmem); [|done].
    rewrite old_parents_total in Hmem.
    split; [done|]. split; [done|].
    intros u w. case_decide as Hw; [|by apply Hoth]. subst w.
    rewrite Hmem, <-(HI1 u v). generalize (DepGraph.parents g !!! v).
    intros o. rewrite !elem_of_difference.
    destruct (decide (u ∈ o)), (decide (u ∈ P)); tauto.
Qed.

Lemma graph_ext (g1 g2 : DepGraph.t) :
  DepGraph.parents g1 = DepGraph.parents g2 →
  dom (DepGraph.children g1) = dom (DepGraph.children g2) →
  (∀ u w, w ∈ DepGraph.children g1 !!! u ↔ w ∈ DepGraph.children g2 !!! u) →
  g1 = g2.
Proof.
  destruct g1 as [p1 c1], g2 as [p2 c2]. simpl. intros -> Hdom Hmem.
  f_equal. by apply children_ext.
Qed.

(** Every graph that a successful build followed by successful updates
    produces satisfies I1, and its [children] has no key that [parents]
    lacks, and holds every file named in an edge set of [parents] as a
    key. *)
Theorem built_graph_invariants (g : DepGraph.t) :
  DepGraph.built g →
  DepGraph.I1 g ∧
  dom (DepGraph.children g) ⊆ dom (DepGraph.parents g) ∧
  DepGraph.edges_closed (DepGraph.parents g) (dom (DepGraph.children g)).
Proof.
  intros [HI1 Hsub]%built_I1. split; [done|]. split; [done|].
  apply edges_closed_alt. intros u w Hw%HI1.
  by apply elem_of_lookup_total_dom in Hw.
Qed.

Lemma built_graph_invariants_witness :
  DepGraph.I1 grown_graph ∧
  dom (DepGraph.children grown_graph) ⊆ dom (DepGraph.parents grown_graph) ∧
  DepGraph.edges_closed (DepGraph.parents grown_graph)
    (dom (DepGraph.children grown_graph)).
Proof.
  apply (built_graph_invariants grown_graph).
  eapply (DepGraph.built_update single_graph "_b" {["a"]}).
  - apply (DepGraph.built_from_parents single_parents). vm_compute. reflexivity.
  - vm_compute. reflexivity.
Defined.

(** On a graph that satisfies I2, a successful update leaves a graph
    that satisfies I2 exactly when the updated file was already a key or
    the new parents are empty. *)
Theorem update_keeps_I2_iff (g g' : DepGraph.t) (v : string) (P : gset string) :
  DepGraph.I2 g →
  DepGraph.update g v P = (g', Ok ()) →
  (DepGraph.I2 g' ↔ v ∈ dom (DepGraph.parents g) ∨ P = ∅).
Proof.
  intros HI2 Hup. split.
  - intros (Hdom' & _).
    destruct (decide (v ∈ dom (DepGraph.parents g))) as [|Hv]; [by left|].
    right. apply not_elem_of_dom in Hv.
    destruct (decide (P = default ∅ (DepGraph.parents g !! v))) as [Heq|Hne].
    { by rewrite Hv in Heq. }
    apply update_ok in Hup as (Hp & Hdom & _); [|done].
    destruct HI2 as (Hkeys & _).
    assert (v ∈ dom (DepGraph.parents g)) as Hin.
    { rewrite Hkeys, <-Hdom, <-Hdom', Hp, dom_insert_L. set_solver. }
    by apply not_elem_of_dom in Hv.
  - intros [Hv| ->]; [by eapply update_preserves_I2|].
    destruct (DepGraph.parents g !! v) as [old|] eqn:Hold.
    + eapply update_preserves_I2; [done| |done]. apply elem_of_dom. by exists old.
    + rewrite update_skips_equal_parents in Hup by (by rewrite Hold).
      by injection Hup as <-.
Qed.

Lemma update_keeps_I2_iff_witness :
  DepGraph.I2 (DepGraph.update two_cycle "a" ∅).1 ↔
  "a" ∈ dom (DepGraph.parents two_cycle) ∨ (∅ : gset string) = ∅.
Proof.
  apply (update_keeps_I2_iff two_cycle _ "a" ∅).
  - exact two_cycle_I2.
  - vm_compute. reflexivity.
Defined.

(** On a graph that satisfies I1, of two successful updates of the same
    key the last one wins: the graph is the one that the second update
    alone gives. *)
Theorem last_update_wins (g g1 g2 : DepGraph.t) (v : string) (P Q : gset string) :
  DepGraph.I1 g → v ∈ dom (DepGraph.parents g) →
  DepGraph.update g v P = (g1, Ok ()) →
  DepGraph.update g1 v Q = (g2, Ok ()) →
  DepGraph.update g v Q = (g2, Ok ()).
Proof.
  intros HI1 Hv Hup1 Hup2.
  pose proof (update_preserves_I1 _ _ _ _ HI1 Hup1) as HI1'.
  pose proof (update_ok_known _ _ _ _ HI1 Hv Hup1) as (Hp1 & Hd1 & Hm1).
  assert (v ∈ dom (DepGraph.parents g1)) as Hv1
    by (rewrite Hp1, dom_insert_L; set_solver).
  pose proof (update_ok_known _ _ _ _ HI1' Hv1 Hup2) as (Hp2 & Hd2 & Hm2).
  destruct (DepGraph.update g v Q) as [g3 r] eqn:Hup3.
  assert (r = Ok ()) as ->.
  { pose proof (update_ok_iff g v Q) as Hiff. rewrite Hup3 in Hiff.
    apply Hiff. right. rewrite old_parents_total. split.
    - intros u [Hu _]%elem_of_difference. by apply HI1.
    - intros u [HuQ Hu]%elem_of_difference. rewrite <-Hd1, <-Hd2.
      apply (elem_of_lookup_total_dom _ u v). apply Hm2.
      by rewrite decide_True. }
  pose proof (update_ok_known _ _ _ _ HI1 Hv Hup3) as (Hp3 & Hd3 & Hm3).
  f_equal. apply graph_ext.
  - by rewrite Hp3, Hp2, Hp1, insert_insert_eq.
  - congruence.
  - intros u w. rewrite Hm3, Hm2. case_decide; [done|].
    rewrite Hm1. by rewrite decide_False.
Qed.

Lemma last_update_wins_witness :
  DepGraph.update two_cycle "a" {["a"; "b"]} =
    ((DepGraph.update (DepGraph.update two_cycle "a" ∅).1 "a" {["a"; "b"]}).1,
     Ok ()).
Proof.
  apply (last_update_wins two_cycle (DepGraph.update two_cycle "a" ∅).1 _
           "a" ∅ {["a"; "b"]}).
  - exact two_cycle_I1.
  - by_evaluation.
  - vm_compute. reflexivity.
  - vm_compute. reflexivity.
Defined.

(** On a graph that satisfies I1, a successful update of a key is undone
    by updating the key with its former parents: that second update
    succeeds and gives the first graph back. *)
Theorem update_then_restore (g g1 : DepGraph.t) (v : string) (P : gset string) :
  DepGraph.I1 g → v ∈ dom (DepGraph.parents g) →
  DepGraph.update g v P = (g1, Ok ()) →
  DepGraph.update g1 v (DepGraph.parents g !!! v) = (g, Ok ()).
Proof.
  intros HI1 Hv Hup1.
  pose proof (update_preserves_I1 _ _ _ _ HI1 Hup1) as HI1'.
  pose proof (update_ok_known _ _ _ _ HI1 Hv Hup1) as (Hp1 & Hd1 & Hm1).
  assert (v ∈ dom (DepGraph.parents g1)) as Hv1
    by (rewrite Hp1, dom_insert_L; set_solver).
  set (old := DepGraph.parents g !!! v) in *.
  destruct (DepGraph.update g1 v old) as [g2 r] eqn:Hup2.
  assert (r = Ok ()) as ->.
  { pose proof (update_ok_iff g1 v old) as Hiff. rewrite Hup2 in Hiff.
    apply Hiff. right. rewrite old_parents_total, Hp1, lookup_total_insert_eq.
    split.
    - intros u [Hu _]%elem_of_difference. apply Hm1. by rewrite decide_True.
    - intros u [Hu _]%elem_of_difference. rewrite Hd1.
      apply (elem_of_lookup_total_dom _ u v). by apply HI1. }
  pose proof (update_ok_known _ _ _ _ HI1' Hv1 Hup2) as (Hp2 & Hd2 & Hm2).
  f_equal. apply graph_ext.
  - rewrite Hp2, Hp1, insert_insert_eq. apply insert_id.
    apply elem_of_dom in Hv as [s Hs]. unfold old.
    by rewrite (lookup_total_correct _ _ _ Hs).
  - congruence.
  - intros u w. rewrite Hm2. case_decide as Hw.
    + subst w. unfold old. by rewrite (HI1 u v).
    + rewrite Hm1. by rewrite decide_False.
Qed.

Lemma update_then_restore_witness :
  DepGraph.update (DepGraph.update two_cycle "a" {["a"]}).1 "a"
    (DepGraph.parents two_cycle !!! "a") = (two_cycle, Ok ()).
Proof.
  apply (update_then_restore two_cycle _ "a" {["a"]}).
  - exact two_cycle_I1.
  - by_evaluation.
  - vm_compute. reflexivity.
Defined.

(** ** Traversal of any graph *)

Section traversal_errors.
Context (adjacency : gmap string (gset string)).
Implicit Types (seen : gset string) (stack : list (list string)).
Implicit Types (tr : DepGraph.trace).

(** When the loop ends by exhaustion, every vertex yielded is a key. *)
Lemma dfs_yields_keys fuel seen stack tr :
  DepGraph.dfs fuel adjacency seen stack = Some tr →
  tr.2 = Ok () → ∀ v, v ∈ tr.1 → v ∈ dom adjacency.
Proof.
  revert fuel seen stack tr.
  apply (dfs_ind adjacency (λ seen stack tr,
    tr.2 = Ok () → ∀ v, v ∈ tr.1 → v ∈ dom adjacency)); simpl.
  - by intros ? ? ? ?%elem_of_nil.
  - done.
  - done.
  - done.
  - intros seen child rest stack s tr _ Hchild IH Hok v [->|Hv]%elem_of_cons.
    + apply elem_of_dom. by exists s.
    + by apply IH.
Qed.

(** When the loop raises, it raises [KeyError] for the vertex it
    yielded last, which is no key. *)
Lemma dfs_raise fuel seen stack tr e :
  DepGraph.dfs fuel adjacency seen stack = Some tr →
  tr.2 = Raise e →
  ∃ c, e = KeyError c ∧ (c ∉ dom adjacency) ∧ last tr.1 = Some c.
Proof.
  revert fuel seen stack tr.
  apply (dfs_ind adjacency (λ seen stack tr,
    tr.2 = Raise e →
    ∃ c, e = KeyError c ∧ (c ∉ dom adjacency) ∧ last tr.1 = Some c)); simpl.
  - done.
  - done.
  - done.
  - intros seen child rest stack _ Hnone [= <-]. exists child.
    split; [done|]. split; [by apply not_elem_of_dom | done].
  - intros seen child rest stack s tr _ _ IH (c & -> & Hc & Hlast)%IH.
    exists c. split; [done|]. split; [done|].
    by rewrite last_cons, Hlast.
Qed.

(** No [KeyError] when the vertices on the stack lie in a set of keys
    that is closed under [adjacency]. *)
Lemma dfs_no_error_on (A : string → Prop) fuel seen stack tr :
  (∀ c, A c → c ∈ dom adjacency) →
  (∀ c d, A c → DepGraph.edge adjacency c d → A d) →
  DepGraph.dfs fuel adjacency seen stack = Some tr →
  (∀ it c, it ∈ stack → c ∈ it → A c) →
  tr.2 = Ok ().
Proof.
  intros Hkeys Hclosed. revert fuel seen stack tr.
  apply (dfs_ind adjacency (λ seen stack tr,
    (∀ it c, it ∈ stack → c ∈ it → A c) → tr.2 = Ok ())); simpl.
  - done.
  - intros seen stack tr IH Hst. apply IH.
    intros it c ? ?. apply (Hst it); set_solver.
  - intros seen child rest stack tr _ IH Hst. apply IH.
    intros it c [->|?]%elem_of_cons ?.
    + apply (Hst (child :: rest)); set_solver.
    + apply (Hst it); set_solver.
  - intros seen child rest stack _ Hnone Hst.
    apply not_elem_of_dom in Hnone. destruct Hnone.
    apply Hkeys, (Hst (child :: rest)); set_solver.
  - intros seen child rest stack s tr _ Hchild IH Hst. apply IH.
    intros it c [->|[->|?]%elem_of_cons]%elem_of_cons Hc.
    + apply elem_of_elements in Hc. apply (Hclosed child).
      * apply (Hst (child :: rest)); set_solver.
      * unfold DepGraph.edge. by rewrite (lookup_total_correct _ _ _ Hchild).
    + apply (Hst (child :: rest)); set_solver.
    + apply (Hst it); set_solver.
Qed.
End traversal_errors.

(** Iterating a generator ends, whatever the graph, the direction and
    the start; no vertex is yielded twice, [start] is not yielded, and
    every vertex yielded is reached from [start] by one edge or more of
    the mapping that the direction selects. *)
Theorem iteration_ends_and_yields_reachable (gen : DepGraph.generator) :
  ∃ l r,
    DepGraph.run gen = Some (l, r) ∧
    NoDup l ∧ (DepGraph.gen_start gen ∉ l) ∧
    ∀ adjacency v,
      DepGraph.select_adjacency (DepGraph.gen_self gen)
        (DepGraph.gen_direction gen) = Ok adjacency →
      v ∈ l →
      ∃ c, DepGraph.edge adjacency (DepGraph.gen_start gen) c ∧
           rtc (DepGraph.edge adjacency) c v.
Proof.
  destruct gen as [g direction start]. unfold DepGraph.run.
  cbn [DepGraph.gen_self DepGraph.gen_direction DepGraph.gen_start].
  destruct (DepGraph.select_adjacency g direction) as [adjacency|e].
  2:{ exists [], (Raise e). split; [done|]. split; [constructor|].
      split; [by intros ?%elem_of_nil | by intros ? ? ? ?%elem_of_nil]. }
  destruct (adjacency !! start) as [s|] eqn:Hs.
  2:{ exists [], (Raise (KeyError start)). split; [done|].
      split; [constructor|].
      split; [by intros ?%elem_of_nil | by intros ? ? ? ?%elem_of_nil]. }
  destruct (dfs_enough_fuel adjacency
              (DepGraph.dfs_fuel adjacency {[start]} [set_iter s])
              {[start]} [set_iter s]) as [[l r] Hdfs]; [done|].
  exists l, r. split; [done|].
  destruct (dfs_NoDup _ _ _ _ _ Hdfs) as [Hnd Hfresh]. split; [done|]. split.
  { intros Hin. apply Hfresh in Hin. set_solver. }
  intros adjacency' v [= <-] Hv.
  destruct (dfs_sound _ _ _ _ _ Hdfs v Hv) as (it & c & Hit & Hc & Hreach).
  apply list_elem_of_singleton in Hit as ->. apply elem_of_elements in Hc.
  exists c. split; [|done]. unfold DepGraph.edge.
  by rewrite (lookup_total_correct _ _ _ Hs).
Qed.

(** Iterating a generator of a valid direction ends by exhaustion
    exactly when [start] and every vertex reachable from it are keys of
    the mapping traversed.  Otherwise it raises [KeyError] for a
    reachable vertex that is no key: for [start] before anything is
    yielded, or else for the vertex yielded last. *)
Theorem iteration_succeeds_iff (g : DepGraph.t) (direction start : string)
    (adjacency : gmap string (gset string)) :
  DepGraph.select_adjacency g direction = Ok adjacency →
  ((∃ l, DepGraph.run (DepGraph.Generator g direction start) = Some (l, Ok ()))
   ↔ ∀ v, rtc (DepGraph.edge adjacency) start v → v ∈ dom adjacency) ∧
  (∀ l e, DepGraph.run (DepGraph.Generator g direction start)
            = Some (l, Raise e) →
          ∃ c, e = KeyError c ∧ (c ∉ dom adjacency) ∧
               rtc (DepGraph.edge adjacency) start c ∧
               (l = [] ∧ c = start ∨ last l = Some c)).
Proof.
  intros Hsel. unfold DepGraph.run.
  cbn [DepGraph.gen_self DepGraph.gen_direction DepGraph.gen_start].
  rewrite Hsel. destruct (adjacency !! start) as [s|] eqn:Hs.
  2:{ split.
      - split; [by intros [l [=]]|]. intros Hall.
        specialize (Hall start (rtc_refl _ _)).
        by apply not_elem_of_dom in Hs.
      - intros l e [= <- <-]. exists start. split; [done|].
        split; [by apply not_elem_of_dom|]. split; [done | by left]. }
  destruct (dfs_enough_fuel adjacency
              (DepGraph.dfs_fuel adjacency {[start]} [set_iter s])
              {[start]} [set_iter s]) as [[l r] Hdfs]; [done|].
  rewrite Hdfs.
  assert (∀ c, c ∈ set_iter s → DepGraph.edge adjacency start c) as Hfirst.
  { intros c Hc%elem_of_elements. unfold DepGraph.edge.
    by rewrite (lookup_total_correct _ _ _ Hs). }
  split.
  - split.
    + intros [l' [= -> ->]] v Hreach.
      destruct (dfs_complete _ _ _ _ _ Hdfs eq_refl) as [Hcl _].
      { intros x c ->%elem_of_singleton Hedge. right. exists (set_iter s).
        split; [set_solver|]. apply elem_of_elements.
        unfold DepGraph.edge in Hedge.
        by rewrite (lookup_total_correct _ _ _ Hs) in Hedge. }
      simpl in Hcl.
      assert (v ∈ ({[start]} : gset string) ∪ list_to_set l') as Hin.
      { revert v Hreach.
        apply (rtc_ind_r (R := DepGraph.edge adjacency)
                 (λ v, v ∈ ({[start]} : gset string) ∪ list_to_set l'));
          [set_solver|].
        intros y z _ Hyz IH. exact (Hcl y z IH Hyz). }
      apply elem_of_union in Hin as [->%elem_of_singleton|Hin].
      * apply elem_of_dom. by exists s.
      * apply elem_of_list_to_set in Hin.
        by apply (dfs_yields_keys _ _ _ _ _ Hdfs eq_refl).
    + intros Hall. exists l. do 2 f_equal.
      apply (dfs_no_error_on adjacency (rtc (DepGraph.edge adjacency) start)
               _ _ _ _ Hall) in Hdfs; [done| |].
      * intros c d Hc Hcd. by eapply rtc_r.
      * intros it c ->%list_elem_of_singleton Hc.
        by apply rtc_once, Hfirst.
  - intros l' e [= -> ->].
    destruct (dfs_raise _ _ _ _ _ _ Hdfs eq_refl) as (c & -> & Hc & Hlast).
    exists c. split; [done|]. split; [done|]. split; [|by right].
    simpl in Hlast. apply last_Some_elem_of in Hlast.
    destruct (dfs_sound _ _ _ _ _ Hdfs c Hlast) as (it & c' & Hit & Hc' & Hr).
    apply list_elem_of_singleton in Hit as ->.
    eapply rtc_l; [by apply Hfirst | done].
Qed.

Lemma iteration_succeeds_iff_witness :
  ∃ c, KeyError "_b" = KeyError c ∧
       (c ∉ dom (DepGraph.children grown_graph)) ∧
       rtc (DepGraph.edge (DepGraph.children grown_graph)) "a" c ∧
       (["_b"] = [] ∧ c = "a" ∨ last ["_b"] = Some c).
Proof.
  destruct (iteration_succeeds_iff grown_graph "descendants" "a"
              (DepGraph.children grown_graph)) as [_ H]; [reflexivity|].
  apply (H ["_b"] (KeyError "_b")). vm_compute. reflexivity.
Defined.

(** ** Ancestors and descendants *)

Lemma I2_parents_closed (g : DepGraph.t) :
  DepGraph.I2 g →
  DepGraph.edges_closed (DepGraph.parents g) (dom (DepGraph.parents g)).
Proof.
  intros (_ & Hp & _). unfold DepGraph.edges_closed in *.
  eapply map_Forall_impl; [exact Hp|]. simpl. set_solver.
Qed.

(** Under I1 a path along [children] is a path along [parents] taken
    backwards. *)
Lemma rtc_children_parents (g : DepGraph.t) (u v : string) :
  DepGraph.I1 g →
  rtc (DepGraph.edge (DepGraph.children g)) u v ↔
  rtc (DepGraph.edge (DepGraph.parents g)) v u.
Proof.
  intros HI1. split.
  - induction 1 as [x|x y z Hxy _ IH]; [done|].
    eapply rtc_r; [exact IH|]. by apply HI1.
  - induction 1 as [x|x y z Hxy _ IH]; [done|].
    eapply rtc_r; [exact IH|]. by apply HI1.
Qed.

(** In a graph that satisfies I2, the traversal in the direction
    ['ancestors'] from a key [start] ends by exhaustion and yields, once
    each, exactly the files other than [start] that [start] depends on,
    directly or through other files. *)
Theorem ancestors_yields_dependencies (g : DepGraph.t) (start : string) :
  DepGraph.I2 g → start ∈ dom (DepGraph.parents g) →
  ∃ gen l,
    DepGraph.connected_components g "ancestors" start = Ok gen ∧
    DepGraph.run gen = Some (l, Ok ()) ∧
    NoDup l ∧
    ∀ v, v ∈ l ↔
         v ≠ start ∧ rtc (DepGraph.edge (DepGraph.parents g)) start v.
Proof.
  intros HI2 Hstart. eexists.
  destruct (run_spec g "ancestors" start (DepGraph.parents g))
    as (l & Hrun & Hnd & Hl); [done | by apply I2_parents_closed | done |].
  exists l. split; [reflexivity|]. done.
Qed.

Lemma ancestors_yields_dependencies_witness :
  ∃ gen l,
    DepGraph.connected_components two_cycle "ancestors" "a" = Ok gen ∧
    DepGraph.run gen = Some (l, Ok ()) ∧
    NoDup l ∧
    ∀ v, v ∈ l ↔
         v ≠ "a" ∧ rtc (DepGraph.edge (DepGraph.parents two_cycle)) "a" v.
Proof.
  apply (ancestors_yields_dependencies two_cycle "a").
  - exact two_cycle_I2.
  - by_evaluation.
Defined.

(** In a graph that satisfies I1 and I2, for keys [u] and [v] both
    traversals end by exhaustion, and [v] is among the descendants of
    [u] exactly when [u] is among the ancestors of [v]. *)
Theorem descendants_ancestors_duality (g : DepGraph.t) (u v : string) :
  DepGraph.I1 g → DepGraph.I2 g →
  u ∈ dom (DepGraph.parents g) → v ∈ dom (DepGraph.parents g) →
  ∃ ld la,
    DepGraph.run (DepGraph.Generator g "descendants" u) = Some (ld, Ok ()) ∧
    DepGraph.run (DepGraph.Generator g "ancestors" v) = Some (la, Ok ()) ∧
    (v ∈ ld ↔ u ∈ la).
Proof.
  intros HI1 HI2 Hu Hv.
  destruct (run_spec g "descendants" u (DepGraph.children g))
    as (ld & Hd & _ & Hld); [done | by apply I2_children_closed | |].
  { destruct HI2 as (<- & _). done. }
  destruct (run_spec g "ancestors" v (DepGraph.parents g))
    as (la & Ha & _ & Hla); [done | by apply I2_parents_closed | done |].
  exists ld, la. split; [done|]. split; [done|].
  rewrite Hld, Hla, (rtc_children_parents g u v HI1). naive_solver.
Qed.

Lemma descendants_ancestors_duality_witness :
  ∃ ld la,
    DepGraph.run (DepGraph.Generator chain_graph "descendants" "_base.html")
      = Some (ld, Ok ()) ∧
    DepGraph.run (DepGraph.Generator chain_graph "ancestors" "page.html")
      = Some (la, Ok ()) ∧
    ("page.html" ∈ ld ↔ "_base.html" ∈ la).
Proof.
  apply (descendants_ancestors_duality chain_graph "_base.html" "page.html").
  - apply I1_check_sound. vm_compute. reflexivity.
  - split; [reflexivity|]. split; by_evaluation.
  - by_evaluation.
  - by_evaluation.
Defined.

(** In a graph that satisfies I1 and I2, a file whose parents name [a]
    is among the descendants of [a]. *)
Theorem dependents_are_descendants (g : DepGraph.t) (a b : string) :
  DepGraph.I1 g → DepGraph.I2 g →
  a ∈ DepGraph.parents g !!! b → a ≠ b →
  ∃ gen l,
    DepGraph.get_descendants g a = Ok gen ∧
    DepGraph.run gen = Some (l, Ok ()) ∧ b ∈ l.
Proof.
  intros HI1 HI2 Hab Hne. eexists.
  destruct (run_spec g "descendants" a (DepGraph.children g))
    as (l & Hrun & _ & Hl); [done | by apply I2_children_closed | |].
  { apply HI1 in Hab. by apply elem_of_lookup_total_dom in Hab. }
  exists l. split; [reflexivity|]. split; [done|].
  apply Hl. split; [done|]. apply rtc_once. by apply HI1.
Qed.

Lemma dependents_are_descendants_witness :
  ∃ gen l,
    DepGraph.get_descendants chain_graph "_base.html" = Ok gen ∧
    DepGraph.run gen = Some (l, Ok ()) ∧ "_mid.html" ∈ l.
Proof.
  apply (dependents_are_descendants chain_graph "_base.html" "_mid.html").
  - apply I1_check_sound. vm_compute. reflexivity.
  - split; [reflexivity|]. split; by_evaluation.
  - by_evaluation.
  - discriminate.
Defined.

(** ** Partial and ignored files *)

Section marked_segments.
Context (m : ascii) (Hm : m ≠ os_path_sep).

Let marked (x : string) : bool := startswith x (String m EmptyString).

Lemma marked_cons (c : ascii) (x : string) :
  marked (String c x) = bool_decide (c = m).
Proof.
  unfold marked, startswith. simpl.
  destruct (ascii_dec m c) as [->|Hne].
  - rewrite bool_decide_eq_true_2 by done. by destruct x.
  - by rewrite bool_decide_eq_false_2 by done.
Qed.

Lemma split_marked (f : string) :
  ∃ h t, split f os_path_sep = h :: t ∧
    marked h = marked f ∧
    (existsb marked t = true ↔
     ∃ a b, f = a +:+ String os_path_sep (String m b)).
Proof.
  induction f as [|c f (h & t & Hsplit & Hhead & Htail)]; simpl.
  - exists EmptyString, []. split; [done|]. split; [done|].
    split; [done|]. intros (a & b & Hab). by destruct a.
  - rewrite Hsplit. destruct (Ascii.eqb c os_path_sep) eqn:Hc.
    + apply Ascii.eqb_eq in Hc as ->.
      exists EmptyString, (h :: t). split; [done|]. split.
      { rewrite marked_cons. by rewrite bool_decide_eq_false_2. }
      simpl. rewrite orb_true_iff, Htail, Hhead. split.
      * intros [Hf|(a & b & ->)].
        -- destruct f as [|d f]; [done|]. rewrite marked_cons in Hf.
           apply bool_decide_eq_true in Hf as ->. by exists EmptyString, f.
        -- by exists (String os_path_sep a), b.
      * intros ([|d a] & b & Hab); simpl in Hab.
        -- injection Hab as ->. left. rewrite marked_cons.
           by apply bool_decide_eq_true.
        -- injection Hab as _ ->. right. by exists a, b.
    + apply Ascii.eqb_neq in Hc.
      exists (String c h), t. split; [done|]. split.
      { by rewrite !marked_cons. }
      rewrite Htail. split.
      * intros (a & b & ->). by exists (String c a), b.
      * intros ([|d a] & b & Hab); simpl in Hab.
        -- by injection Hab as -> _.
        -- injection Hab as _ ->. by exists a, b.
Qed.

Lemma any_segment_marked (f : string) :
  existsb marked (split f os_path_sep) = true ↔
  marked f = true ∨ ∃ a b, f = a +:+ String os_path_sep (String m b).
Proof.
  destruct (split_marked f) as (h & t & -> & Hhead & Htail).
  simpl. by rewrite orb_true_iff, Hhead, Htail.
Qed.
End marked_segments.

(** A file is a partial exactly when its name starts with [_] or has
    [/_] somewhere in it, and ignored exactly when its name starts with
    [.] or has [/.] somewhere in it. *)
Theorem is_partial_is_ignored_by_substring (filename : string) :
  (Sources.is_partial filename = true ↔
   startswith filename "_" = true ∨ ∃ a b, filename = a +:+ "/_" +:+ b) ∧
  (Sources.is_ignored filename = true ↔
   startswith filename "." = true ∨ ∃ a b, filename = a +:+ "/." +:+ b).
Proof.
  split.
  - apply (any_segment_marked "_"%char). discriminate.
  - apply (any_segment_marked "."%char). discriminate.
Qed.

(** ** make_dep_graph *)

Lemma lookup_empty_parents (names : list string) (f : string) :
  Sources.empty_parents names !! f = if decide (f ∈ names) then Some ∅ else None.
Proof.
  unfold Sources.empty_parents. induction names as [|x names IH].
  - rewrite fmap_nil, list_to_map_nil, lookup_empty.
    by rewrite decide_False by apply not_elem_of_nil.
  - rewrite fmap_cons, list_to_map_cons. cbn [fst snd].
    destruct (decide (x = f)) as [->|Hne].
    + rewrite lookup_insert_eq. by rewrite decide_True by (by left).
    + rewrite lookup_insert_ne, IH by done.
      destruct (decide (f ∈ names)) as [Hin|Hin].
      * by rewrite decide_True by (by right).
      * rewrite decide_False; [done|]. by intros [?|?]%elem_of_cons.
Qed.

Lemma collect_file_deps_ok (s : Sources.t) (names : list string)
    (parents parents' : gmap string (gset string)) :
  Sources.collect_file_deps s names parents = Ok parents' →
  (∀ f, f ∈ names →
        ∃ deps, Sources.get_file_dep s f = Ok deps ∧ parents' !! f = Some deps) ∧
  (∀ f, f ∉ names → parents' !! f = parents !! f).
Proof.
  revert parents. induction names as [|x names IH]; intros parents; simpl.
  - intros [= <-]. split; [by intros ? ?%elem_of_nil | done].
  - destruct (Sources.get_file_dep s x) as [deps|e] eqn:Hx; [|done].
    intros [Hin Hout]%IH. split.
    + intros f Hf. destruct (decide (f ∈ names)) as [Hn|Hn]; [by apply Hin|].
      apply elem_of_cons in Hf as [->|?]; [|done].
      exists deps. split; [done|]. by rewrite Hout, lookup_insert_eq.
    + intros f Hf. rewrite Hout by (intros ?; apply Hf; by right).
      apply lookup_insert_ne. intros ->. apply Hf. by left.
Qed.

Lemma collect_file_deps_raise (s : Sources.t) (names : list string)
    (parents : gmap string (gset string)) (e : exn) :
  Sources.collect_file_deps s names parents = Raise e →
  ∃ f, f ∈ names ∧ Sources.get_file_dep s f = Raise e.
Proof.
  revert parents. induction names as [|x names IH]; intros parents; simpl.
  - done.
  - destruct (Sources.get_file_dep s x) as [deps|e'] eqn:Hx.
    + intros (f & ? & ?)%IH. exists f. split; [by right | done].
    + intros [= <-]. exists x. split; [by left | done].
Qed.

Lemma collect_file_deps_total (s : Sources.t) (names : list string)
    (parents : gmap string (gset string)) :
  (∀ f, f ∈ names → is_ok (Sources.get_file_dep s f) = true) →
  is_ok (Sources.collect_file_deps s names parents) = true.
Proof.
  intros Hall.
  destruct (Sources.collect_file_deps s names parents) as [|e] eqn:Hc; [done|].
  apply collect_file_deps_raise in Hc as (f & Hf & He).
  specialize (Hall f Hf). by rewrite He in Hall.
Qed.

(** The parents that [make_dep_graph] hands to the build. *)
Lemma make_dep_graph_parents (s : Sources.t) (listing : list string)
    (parents : gmap string (gset string)) :
  Sources.collect_file_deps s (Sources.jinja_names s listing)
    (Sources.empty_parents
       (Sources.jinja_names s listing ++ Sources.data_names s listing))
    = Ok parents →
  dom parents =
    list_to_set (Sources.jinja_names s listing ++ Sources.data_names s listing) ∧
  (∀ f, f ∈ Sources.jinja_names s listing →
        Sources.get_file_dep s f = Ok (parents !!! f)) ∧
  (∀ f, f ∈ Sources.data_names s listing →
        f ∉ Sources.jinja_names s listing → parents !!! f = ∅).
Proof.
  intros [Hin Hout]%collect_file_deps_ok.
  assert (∀ f, f ∈ Sources.jinja_names s listing →
            Sources.get_file_dep s f = Ok (parents !!! f)) as Hj.
  { intros f (deps & Hdeps & Hf)%Hin.
    by rewrite (lookup_total_correct _ _ _ Hf). }
  split; [|split; [done|]].
  - apply set_eq. intros f. rewrite elem_of_dom, elem_of_list_to_set.
    destruct (decide (f ∈ Sources.jinja_names s listing)) as [Hf|Hf].
    + destruct (Hin f Hf) as (deps & _ & ->). split; [|by eexists].
      intros _. apply elem_of_app. by left.
    + rewrite Hout, lookup_empty_parents by done. case_decide; [|split].
      * split; [done | by eexists].
      * by intros [? ?].
      * done.
  - intros f Hd Hnj. rewrite lookup_total_alt, Hout, lookup_empty_parents by done.
    rewrite decide_True; [done|]. apply elem_of_app. by right.
Qed.

Lemma make_dep_graph_ok (s s' : Sources.t) (listing : list string) :
  Sources.make_dep_graph s listing = (s', Ok ()) →
  ∃ g, s' = Sources.set_dep_graph s g ∧
    dom (DepGraph.parents g) =
      list_to_set (Sources.jinja_names s listing
                     ++ Sources.data_names s listing) ∧
    DepGraph.I1 g ∧ DepGraph.I2 g ∧
    (∀ f, f ∈ Sources.jinja_names s listing →
          Sources.get_file_dep s f = Ok (DepGraph.parents g !!! f)) ∧
    (∀ f, f ∈ Sources.data_names s listing →
          f ∉ Sources.jinja_names s listing →
          DepGraph.parents g !!! f = ∅).
Proof.
  unfold Sources.make_dep_graph.
  destruct (Sources.collect_file_deps _ _ _) as [parents|e] eqn:Hc; [|done].
  destruct (DepGraph.from_parents parents) as [g|e] eqn:Hg; [|done].
  intros [= <-]. exists g. split; [done|].
  apply from_parents_invariants in Hg as (-> & HI1 & HI2).
  apply make_dep_graph_parents in Hc as (Hdom & Hj & Hd). done.
Qed.

(** A successful [make_dep_graph] changes nothing of the sources but the
    graph, whose keys are the jinja and the data files of the listing;
    the graph satisfies I1 and I2, gives every jinja file the
    dependencies that [get_file_dep] finds for it, and gives a data file
    that is no jinja file no parents. *)
Theorem make_dep_graph_builds_consistent_graph
    (s s' : Sources.t) (listing : list string) :
  Sources.make_dep_graph s listing = (s', Ok ()) →
  ∃ g, s' = Sources.set_dep_graph s g ∧
    dom (DepGraph.parents g) =
      list_to_set (Sources.jinja_names s listing
                     ++ Sources.data_names s listing) ∧
    DepGraph.I1 g ∧ DepGraph.I2 g ∧
    (∀ f, f ∈ Sources.jinja_names s listing →
          Sources.get_file_dep s f = Ok (DepGraph.parents g !!! f)) ∧
    (∀ f, f ∈ Sources.data_names s listing →
          f ∉ Sources.jinja_names s listing →
          DepGraph.parents g !!! f = ∅).
Proof. apply make_dep_graph_ok. Qed.

(** [make_dep_graph] succeeds exactly when [get_file_dep] succeeds for
    every jinja file of the listing and every dependency it finds is a
    jinja or a data file of the listing; when it raises, the sources are
    left as they were. *)
Theorem make_dep_graph_succeeds_iff (s : Sources.t) (listing : list string) :
  ((Sources.make_dep_graph s listing).2 = Ok () ↔
   ∀ f, f ∈ Sources.jinja_names s listing →
     ∃ deps, Sources.get_file_dep s f = Ok deps ∧
       ∀ d, d ∈ deps →
         d ∈ Sources.jinja_names s listing ∨ d ∈ Sources.data_names s listing) ∧
  (∀ e, (Sources.make_dep_graph s listing).2 = Raise e →
        (Sources.make_dep_graph s listing).1 = s).
Proof.
  split.
  2:{ intros e. unfold Sources.make_dep_graph.
      destruct (Sources.collect_file_deps _ _ _) as [parents|e1]; [|done].
      by destruct (DepGraph.from_parents parents). }
  unfold Sources.make_dep_graph.
  destruct (Sources.collect_file_deps _ _ _) as [parents|e] eqn:Hc.
  - pose proof (make_dep_graph_parents _ _ _ Hc) as (Hdom & Hj & _).
    pose proof (from_parents_ok_iff parents) as Hok.
    rewrite edges_closed_alt, Hdom in Hok.
    setoid_rewrite elem_of_list_to_set in Hok.
    setoid_rewrite elem_of_app in Hok.
    destruct (DepGraph.from_parents parents) as [g|e] eqn:Hg; simpl in *.
    + split; [|done]. intros _ f Hf. exists (parents !!! f).
      split; [by apply Hj|]. intros d Hd. by apply (proj1 Hok eq_refl f d).
    + split; [done|]. intros Hall. assert (false = true); [|done].
      apply Hok. intros u w Hw.
      assert (u ∈ Sources.jinja_names s listing) as Hu.
      { destruct (decide (u ∈ Sources.jinja_names s listing)); [done|].
        apply collect_file_deps_ok in Hc as [_ Hout].
        apply elem_of_lookup_total in Hw as (ds & Hds & Hw).
        rewrite Hout, lookup_empty_parents in Hds by done.
        case_decide; simplify_eq. by apply not_elem_of_empty in Hw. }
      destruct (Hall u Hu) as (deps & Hdeps & Hcl).
      rewrite (Hj u Hu) in Hdeps. injection Hdeps as <-. by apply Hcl.
  - split; [done|]. intros Hall.
    apply collect_file_deps_raise in Hc as (f & Hf & He).
    destruct (Hall f Hf) as (deps & Hdeps & _). by rewrite He in Hdeps.
Qed.

Lemma make_dep_graph_builds_consistent_graph_witness :
  ∃ g, Sources.set_dep_graph page_sources page_graph
         = Sources.set_dep_graph page_sources g ∧
    dom (DepGraph.parents g) =
      list_to_set (Sources.jinja_names page_sources site_listing
                     ++ Sources.data_names page_sources site_listing) ∧
    DepGraph.I1 g ∧ DepGraph.I2 g ∧
    (∀ f, f ∈ Sources.jinja_names page_sources site_listing →
          Sources.get_file_dep page_sources f = Ok (DepGraph.parents g !!! f)) ∧
    (∀ f, f ∈ Sources.data_names page_sources site_listing →
          f ∉ Sources.jinja_names page_sources site_listing →
          DepGraph.parents g !!! f = ∅).
Proof.
  apply (make_dep_graph_builds_consistent_graph page_sources _ site_listing).
  vm_compute. reflexivity.
Defined.

Lemma make_dep_graph_succeeds_iff_witness :
  (∀ f, f ∈ Sources.jinja_names page_sources site_listing →
     ∃ deps, Sources.get_file_dep page_sources f = Ok deps ∧
       ∀ d, d ∈ deps →
         d ∈ Sources.jinja_names page_sources site_listing ∨
         d ∈ Sources.data_names page_sources site_listing) ∧
  (Sources.make_dep_graph (broken_sources single_graph) site_listing).1
    = broken_sources single_graph.
Proof.
  split.
  - destruct (make_dep_graph_succeeds_iff page_sources site_listing) as [H _].
    apply H. vm_compute. reflexivity.
  - destruct (make_dep_graph_succeeds_iff (broken_sources single_graph)
                site_listing) as [_ H].
    apply (H (ExternalError "TemplateSyntaxError")). vm_compute. reflexivity.
Defined.

(** ** update_dep_graph *)

Lemma get_file_dep_set_dep_graph (s : Sources.t) (g : DepGraph.t) (f : string) :
  Sources.get_file_dep (Sources.set_dep_graph s g) f = Sources.get_file_dep s f.
Proof. done. Qed.

Lemma is_template_set_dep_graph (s : Sources.t) (g : DepGraph.t) (f : string) :
  Sources.is_template (Sources.set_dep_graph s g) f = Sources.is_template s f.
Proof. done. Qed.

Lemma update_dep_graph_ok (s s' : Sources.t) (f : string) :
  Sources.update_dep_graph s f = (s', Ok ()) →
  ∃ g P g',
    Sources.dep_graph s = Some g ∧ Sources.get_file_dep s f = Ok P ∧
    DepGraph.update g f P = (g', Ok ()) ∧ s' = Sources.set_dep_graph s g'.
Proof.
  unfold Sources.update_dep_graph.
  destruct (Sources.dep_graph s) as [g|]; [|done].
  destruct (Sources.get_file_dep s f) as [P|]; [|done].
  destruct (DepGraph.update g f P) as [g' r] eqn:Hup.
  intros [= <- ->]. by exists g, P, g'.
Qed.

(** Refreshing the graph for a file twice in a row, the files on disk
    being the same, is the same as refreshing it once: after a
    successful [update_dep_graph], a second one succeeds and changes
    nothing. *)
Theorem update_dep_graph_twice (s s' : Sources.t) (filename : string) :
  Sources.update_dep_graph s filename = (s', Ok ()) →
  Sources.update_dep_graph s' filename = (s', Ok ()).
Proof.
  intros (g & P & g' & Hg & HP & Hup & ->)%update_dep_graph_ok.
  unfold Sources.update_dep_graph.
  rewrite get_file_dep_set_dep_graph, HP. simpl.
  rewrite update_skips_equal_parents; [done|].
  destruct (decide (P = default ∅ (DepGraph.parents g !! filename)))
    as [Heq|Hne].
  - rewrite update_skips_equal_parents in Hup by done. by injection Hup as <-.
  - apply update_ok in Hup as (-> & _); [|done]. by rewrite lookup_insert_eq.
Qed.

Lemma update_dep_graph_twice_witness :
  Sources.update_dep_graph
    (Sources.update_dep_graph (Sources.set_dep_graph page_sources two_cycle)
       "a").1 "a"
  = ((Sources.update_dep_graph (Sources.set_dep_graph page_sources two_cycle)
        "a").1, Ok ()).
Proof.
  apply (update_dep_graph_twice (Sources.set_dep_graph page_sources two_cycle)).
  vm_compute. reflexivity.
Defined.

(** The graph that a successful [make_dep_graph] has made stays
    consistent under refreshes, whatever the files have become since:
    for any sources that hold that graph, the ones of the build or
    others, with other references and other declared dependencies, a
    successful [update_dep_graph] for a jinja or a data file of the
    listing leaves a graph that satisfies I1 and I2. *)
Theorem refresh_of_listed_file_keeps_invariants
    (s s1 later s2 : Sources.t) (listing : list string) (filename : string) :
  Sources.make_dep_graph s listing = (s1, Ok ()) →
  Sources.dep_graph later = Sources.dep_graph s1 →
  filename ∈ Sources.jinja_names s listing ∨
  filename ∈ Sources.data_names s listing →
  Sources.update_dep_graph later filename = (s2, Ok ()) →
  ∃ g2, Sources.dep_graph s2 = Some g2 ∧ DepGraph.I1 g2 ∧ DepGraph.I2 g2.
Proof.
  intros (g & -> & Hdom & HI1 & HI2 & _)%make_dep_graph_ok Hlater Hin
    (g1 & P & g2 & Hg1 & _ & Hup & ->)%update_dep_graph_ok.
  rewrite Hlater in Hg1. injection Hg1 as <-.
  exists g2. split; [done|]. split; [by eapply update_preserves_I1|].
  eapply update_preserves_I2; [done| |done].
  rewrite Hdom. apply elem_of_list_to_set, elem_of_app. done.
Qed.

Lemma refresh_of_listed_file_keeps_invariants_witness :
  (Sources.update_dep_graph edited_page_sources "page.html").1
    ≠ edited_page_sources ∧
  ∃ g2, Sources.dep_graph
          (Sources.update_dep_graph edited_page_sources "page.html").1
          = Some g2 ∧
        DepGraph.I1 g2 ∧ DepGraph.I2 g2.
Proof.
  split.
  - intros Heq. apply (f_equal Sources.dep_graph) in Heq.
    apply (f_equal (λ o, (λ g, DepGraph.parents g !! "page.html") <$> o))
      in Heq.
    vm_compute in Heq. discriminate Heq.
  - apply (refresh_of_listed_file_keeps_invariants page_sources
             (Sources.set_dep_graph page_sources page_graph)
             edited_page_sources _ site_listing "page.html").
    + vm_compute. reflexivity.
    + reflexivity.
    + left. by_evaluation.
    + vm_compute. reflexivity.
Defined.

(** ** The reloader *)

(** Whatever the event, the handler hands only templates to
    [render_templates]: every file name that the sequence it passes
    yields satisfies [is_template]. *)
Theorem event_handler_renders_only_templates
    (rl : Reloader.t) (event_type src_path : string)
    (s' : Sources.t) (needs_rendering : iterable) (r : result ())
    (l : list string) (r' : result ()) :
  Reloader.event_handler rl event_type src_path =
    (s', Some (Reloader.RenderTemplates needs_rendering), r) →
  iterate needs_rendering = Some (l, r') →
  ∀ f, f ∈ l → Sources.is_template s' f = true.
Proof.
  unfold Reloader.event_handler, Reloader.refresh_and_render.
  destruct (Reloader.should_handle _ _ _); [|done].
  destruct (Sources.is_static _ _); [done|].
  destruct (Sources.is_ignored _); [done|].
  destruct (Sources.update_dep_graph _ _) as [s1 [[]|e]]; [|done].
  destruct (Sources.is_template s1 _) eqn:Htpl.
  - intros [= <- <- <-] [= <- <-] f ->%list_elem_of_singleton. done.
  - destruct (Sources.get_dependencies s1 _) as [deps|e]; [|done].
    intros [= <- <- <-]. simpl.
    destruct (iterate deps) as [tr|]; [|done]. intros [= <- <-] f Hf.
    apply list_elem_of_In, filter_In in Hf. tauto.
Qed.

Lemma event_handler_renders_only_templates_witness :
  Sources.is_template (site_sources chain_graph) "page.html" = true.
Proof.
  apply (event_handler_renders_only_templates (site_reloader chain_graph)
           "modified" "/site/_base.html" (site_sources chain_graph)
           (PyFilter (Sources.is_template (site_sources chain_graph))
              (PyGen (DepGraph.Generator chain_graph "descendants"
                        "_base.html")))
           (Ok ()) ["page.html"] (Ok ())).
  - vm_compute. reflexivity.
  - vm_compute. reflexivity.
  - by_evaluation.
Defined.

(** An event that the handler handles without raising changes nothing
    of the sources but the graph, and leaves a graph that satisfies I1
    when the graph before did. *)
Theorem event_handler_keeps_I1
    (rl : Reloader.t) (event_type src_path : string)
    (s' : Sources.t) (a : option Reloader.action) (g : DepGraph.t) :
  Reloader.event_handler rl event_type src_path = (s', a, Ok ()) →
  Sources.dep_graph (Reloader.sources rl) = Some g →
  DepGraph.I1 g →
  ∃ g', s' = Sources.set_dep_graph (Reloader.sources rl) g' ∧ DepGraph.I1 g'.
Proof.
  intros Hev Hg HI1.
  assert (Reloader.sources rl = Sources.set_dep_graph (Reloader.sources rl) g)
    as Hsame by (destruct (Reloader.sources rl); simpl in *; by subst).
  revert Hev. unfold Reloader.event_handler, Reloader.refresh_and_render.
  destruct (Reloader.should_handle _ _ _);
    [|intros [= <- <-]; by exists g].
  destruct (Sources.is_static _ _); [intros [= <- <-]; by exists g|].
  destruct (Sources.is_ignored _); [intros [= <- <-]; by exists g|].
  destruct (Sources.update_dep_graph _ _) as [s1 [[]|e]] eqn:Hup; [|done].
  apply update_dep_graph_ok in Hup as (g0 & P & g' & Hg0 & _ & Hup & ->).
  rewrite Hg in Hg0. injection Hg0 as <-.
  assert (DepGraph.I1 g') by (by eapply update_preserves_I1).
  destruct (Sources.is_template _ _); [intros [= <- <-]; by exists g'|].
  destruct (Sources.get_dependencies _ _); [|done].
  intros [= <- <-]. by exists g'.
Qed.

Lemma event_handler_keeps_I1_witness :
  ∃ g', site_sources chain_graph
          = Sources.set_dep_graph (site_sources chain_graph) g' ∧
        DepGraph.I1 g'.
Proof.
  apply (event_handler_keeps_I1 (site_reloader chain_graph) "modified"
           "/site/_base.html" (site_sources chain_graph)
           (Some (Reloader.RenderTemplates
                    (PyFilter (Sources.is_template (site_sources chain_graph))
                       (PyGen (DepGraph.Generator chain_graph "descendants"
                                 "_base.html")))))
           chain_graph).
  - vm_compute. reflexivity.
  - reflexivity.
  - apply I1_check_sound. vm_compute. reflexivity.
Defined.

(** A handled change of a file that is neither static nor ignored nor a
    template, a partial or a data file that is, renders exactly the
    templates among the descendants of the file in the refreshed graph,
    once each, provided the file is a key of [children] there and every
    file named in [children] is a key. *)
Theorem partial_change_renders_dependent_templates
    (rl : Reloader.t) (event_type src_path : string)
    (s' : Sources.t) (g' : DepGraph.t) :
  let s := Reloader.sources rl in
  let filename := Reloader.relpath rl src_path (Reloader.searchpath rl) in
  Reloader.should_handle rl event_type src_path = true →
  Sources.is_static s filename = false →
  Sources.is_ignored filename = false →
  Sources.is_template s filename = false →
  Sources.update_dep_graph s filename = (s', Ok ()) →
  Sources.dep_graph s' = Some g' →
  DepGraph.edges_closed (DepGraph.children g') (dom (DepGraph.children g')) →
  filename ∈ dom (DepGraph.children g') →
  ∃ needs_rendering l,
    Reloader.event_handler rl event_type src_path =
      (s', Some (Reloader.RenderTemplates needs_rendering), Ok ()) ∧
    iterate needs_rendering = Some (l, Ok ()) ∧
    NoDup l ∧
    ∀ v, v ∈ l ↔
         Sources.is_template s' v = true ∧ v ≠ filename ∧
         rtc (DepGraph.edge (DepGraph.children g')) filename v.
Proof.
  intros s filename Hh Hst Hig Htpl Hup Hg' Hclosed Hkey.
  unfold Reloader.event_handler, Reloader.refresh_and_render.
  fold s filename. rewrite Hh, Hst, Hig, Hup.
  pose proof Hup as (g & P & g1 & _ & _ & _ & Hs')%update_dep_graph_ok.
  assert (Sources.is_template s' filename = false) as Htpl'
    by (by rewrite Hs', is_template_set_dep_graph).
  rewrite Htpl'. unfold Sources.get_dependencies. rewrite Htpl', Hg'.
  assert (Sources.is_partial filename || Sources.is_data s' filename = true)
    as ->.
  { rewrite Hs'. change (Sources.is_data (Sources.set_dep_graph s g1) filename)
      with (Sources.is_data s filename).
    unfold Sources.is_template in Htpl. rewrite Hig, Hst in Htpl.
    destruct (Sources.is_partial filename); [done|].
    by destruct (Sources.is_data s filename). }
  simpl.
  destruct (run_spec g' "descendants" filename (DepGraph.children g'))
    as (l & Hrun & Hnd & Hl); [done..|].
  eexists _, (List.filter (Sources.is_template s') l).
  split; [reflexivity|]. simpl. rewrite Hrun. simpl. split; [done|].
  split; [by apply NoDup_ListNoDup, List.NoDup_filter, NoDup_ListNoDup|].
  intros v. rewrite list_elem_of_In, filter_In, <-list_elem_of_In, Hl. tauto.
Qed.

Lemma partial_change_renders_dependent_templates_witness :
  ∃ needs_rendering l,
    Reloader.event_handler (site_reloader chain_graph) "modified"
      "/site/_base.html" =
      (site_sources chain_graph,
       Some (Reloader.RenderTemplates needs_rendering), Ok ()) ∧
    iterate needs_rendering = Some (l, Ok ()) ∧
    NoDup l ∧
    ∀ v, v ∈ l ↔
         Sources.is_template (site_sources chain_graph) v = true ∧
         v ≠ "_base.html" ∧
         rtc (DepGraph.edge (DepGraph.children chain_graph)) "_base.html" v.
Proof.
  apply (partial_change_renders_dependent_templates
           (site_reloader chain_graph) "modified" "/site/_base.html"
           (site_sources chain_graph) chain_graph).
  - reflexivity.
  - reflexivity.
  - reflexivity.
  - reflexivity.
  - vm_compute. reflexivity.
  - reflexivity.
  - by_evaluation.
  - by_evaluation.
Defined.

(** ** Rules and contexts of a site *)

Section site_properties.
Context {Template Value Rule : Type}.
Context (re_match : string → string → result bool) (name : Template → string).
Implicit Types (rules : list (string * Rule)).
Implicit Types (contexts : list (string * Site.context_generator Template Value)).

Lemma get_rule_some rules template_name f :
  Site.get_rule re_match rules template_name = Ok f ↔
  ∃ pre regex post,
    rules = (pre ++ (regex, f) :: post)%list ∧
    re_match regex template_name = Ok true ∧
    ∀ p, p ∈ pre → re_match p.1 template_name = Ok false.
Proof.
  induction rules as [|[regex f0] rules IH]; simpl.
  - split; [done|]. intros (pre & ? & ? & Heq & _). by destruct pre.
  - destruct (re_match regex template_name) as [[]|e] eqn:Hm.
    + split.
      * intros [= ->]. exists [], regex, rules.
        split; [done|]. split; [done | by intros ? ?%elem_of_nil].
      * intros ([|p pre] & rx & post & Heq & Hrx & Hpre); simpl in Heq.
        -- by injection Heq as _ ->.
        -- injection Heq as <- _.
           specialize (Hpre (regex, f0) ltac:(by left)). simpl in Hpre.
           congruence.
    + rewrite IH. split.
      * intros (pre & rx & post & -> & Hrx & Hpre).
        exists ((regex, f0) :: pre), rx, post. split; [done|].
        split; [done|]. intros p [->|?]%elem_of_cons; [done | by apply Hpre].
      * intros ([|p pre] & rx & post & Heq & Hrx & Hpre); simpl in Heq.
        -- injection Heq as -> _ _. congruence.
        -- injection Heq as _ ->. exists pre, rx, post.
           split; [done|]. split; [done|]. intros q ?. apply Hpre. by right.
    + split; [done|].
      intros ([|p pre] & rx & post & Heq & Hrx & Hpre); simpl in Heq.
      * injection Heq as -> _ _. congruence.
      * injection Heq as <- _.
        specialize (Hpre (regex, f0) ltac:(by left)). simpl in Hpre.
        congruence.
Qed.

(** How [get_rule] raises: with its own [ValueError] once every regex
    has been tried without a match, or with what [re.match] raises on
    the first regex that does not compile, the regexes before it having
    been tried without a match. *)
Lemma get_rule_raise rules template_name e :
  Site.get_rule re_match rules template_name = Raise e ↔
  (e = ValueError "no matching rule" ∧
   ∀ p, p ∈ rules → re_match p.1 template_name = Ok false) ∨
  (∃ pre p post,
     rules = (pre ++ p :: post)%list ∧
     re_match p.1 template_name = Raise e ∧
     ∀ q, q ∈ pre → re_match q.1 template_name = Ok false).
Proof.
  induction rules as [|[regex f0] rules IH]; simpl.
  - split.
    + intros [= <-]. left. split; [done | by intros ? ?%elem_of_nil].
    + intros [[-> _]|(pre & ? & ? & Heq & _)]; [done | by destruct pre].
  - destruct (re_match regex template_name) as [[]|e'] eqn:Hm.
    + split; [done|]. intros [[_ Hall]|([|q pre] & p & post & Heq & Hp & Hpre)].
      * specialize (Hall (regex, f0) ltac:(by left)). simpl in Hall.
        congruence.
      * simpl in Heq. injection Heq as <- _. simpl in Hp. congruence.
      * simpl in Heq. injection Heq as <- _.
        specialize (Hpre (regex, f0) ltac:(by left)). simpl in Hpre.
        congruence.
    + rewrite IH. split.
      * intros [[-> Hall]|(pre & p & post & -> & Hp & Hpre)].
        -- left. split; [done|].
           intros p [->|?]%elem_of_cons; [done | by apply Hall].
        -- right. exists ((regex, f0) :: pre), p, post. split; [done|].
           split; [done|].
           intros q [->|?]%elem_of_cons; [done | by apply Hpre].
      * intros [[-> Hall]|([|q pre] & p & post & Heq & Hp & Hpre)].
        -- left. split; [done|]. intros p ?. apply Hall. by right.
        -- simpl in Heq. injection Heq as <- _. simpl in Hp. congruence.
        -- simpl in Heq. injection Heq as _ ->. right.
           exists pre, p, post. split; [done|]. split; [done|].
           intros q' ?. apply Hpre. by right.
    + split.
      * intros [= <-]. right. exists [], (regex, f0), rules.
        split; [done|]. split; [done | by intros ? ?%elem_of_nil].
      * intros [[_ Hall]|([|q pre] & p & post & Heq & Hp & Hpre)].
        -- specialize (Hall (regex, f0) ltac:(by left)). simpl in Hall.
           congruence.
        -- simpl in Heq. injection Heq as <- _. simpl in Hp. congruence.
        -- simpl in Heq. injection Heq as <- _.
           specialize (Hpre (regex, f0) ltac:(by left)). simpl in Hpre.
           congruence.
Qed.

Lemma get_context_loop_no_match contexts mergecontexts template
    (context : gmap string Value) :
  (∀ p, p ∈ contexts → re_match p.1 (name template) = Ok false) →
  Site.get_context_loop re_match name contexts mergecontexts template context
    = Ok context.
Proof.
  revert context. induction contexts as [|[regex gen] contexts IH];
    intros context Hall; simpl; [done|].
  pose proof (Hall (regex, gen) ltac:(by left)) as Hm. simpl in Hm.
  rewrite Hm. apply IH. intros p ?. apply Hall. by right.
Qed.

Lemma get_context_loop_app contexts1 contexts2 template
    (context : gmap string Value) :
  Site.get_context_loop re_match name (contexts1 ++ contexts2)%list true
    template context =
  match Site.get_context_loop re_match name contexts1 true template context with
  | Raise e => Raise e
  | Ok context' =>
      Site.get_context_loop re_match name contexts2 true template context'
  end.
Proof.
  revert context. induction contexts1 as [|[regex gen] contexts1 IH];
    intros context; simpl; [done|].
  destruct (re_match regex (name template)) as [[]|]; [|apply IH|done].
  destruct (Site.generate gen template); [apply IH | done].
Qed.
End site_properties.

(** [get_rule] returns the render function of the first rule whose
    regex matches the name, the regexes before it having been tried
    without a match.  It raises its [ValueError] when every regex has
    been tried without a match; the only other way it raises is with
    what [re.match] raises on a regex that does not compile, met before
    any match. *)
Theorem get_rule_first_match {Rule : Type}
    (re_match : string → string → result bool)
    (rules : list (string * Rule)) (template_name : string) :
  (∀ f, Site.get_rule re_match rules template_name = Ok f ↔
        ∃ pre regex post,
          rules = (pre ++ (regex, f) :: post)%list ∧
          re_match regex template_name = Ok true ∧
          ∀ p, p ∈ pre → re_match p.1 template_name = Ok false) ∧
  (∀ e, Site.get_rule re_match rules template_name = Raise e ↔
        (e = ValueError "no matching rule" ∧
         ∀ p, p ∈ rules → re_match p.1 template_name = Ok false) ∨
        (∃ pre p post,
           rules = (pre ++ p :: post)%list ∧
           re_match p.1 template_name = Raise e ∧
           ∀ q, q ∈ pre → re_match q.1 template_name = Ok false)).
Proof.
  split; [intros f; apply get_rule_some | intros e; apply get_rule_raise].
Qed.

Lemma get_rule_first_match_witness :
  Site.get_rule literal_match [("blog/", 1); ("", 2); ("blog/2015", 3)]
    "blog/2015/post.html" = Ok 1 ∧
  Site.get_rule literal_match [("blog/", 1)] "index.html"
    = Raise (ValueError "no matching rule") ∧
  Site.get_rule literal_match [("blog/", 1); ("(", 2); ("index", 3)]
    "index.html" = Raise (ExternalError "re.error").
Proof.
  split; [|split].
  - apply (get_rule_first_match literal_match
             [("blog/", 1); ("", 2); ("blog/2015", 3)] "blog/2015/post.html").
    exists [], "blog/", [("", 2); ("blog/2015", 3)].
    split; [reflexivity|]. split; [reflexivity|]. by intros ? ?%elem_of_nil.
  - apply (get_rule_first_match literal_match [("blog/", 1)] "index.html").
    left. split; [reflexivity|].
    intros p ->%list_elem_of_singleton. reflexivity.
  - apply (get_rule_first_match literal_match
             [("blog/", 1); ("(", 2); ("index", 3)] "index.html").
    right. exists [("blog/", 1)], ("(", 2), [("index", 3)].
    split; [reflexivity|]. split; [reflexivity|].
    intros q ->%list_elem_of_singleton. reflexivity.
Defined.

(** Without [mergecontexts], [get_context] is what the first entry whose
    regex matches the name of the template generates, the entries after
    it not being looked at; with or without it, the context is empty
    when no regex matches. *)
Theorem get_context_first_match {Template Value : Type}
    (re_match : string → string → result bool) (name : Template → string)
    (pre post : list (string * Site.context_generator Template Value))
    (regex : string) (gen : Site.context_generator Template Value)
    (mergecontexts : bool) (template : Template) :
  (∀ p, p ∈ pre → re_match p.1 (name template) = Ok false) →
  Site.get_context re_match name pre mergecontexts template = Ok ∅ ∧
  (re_match regex (name template) = Ok true →
   Site.get_context re_match name (pre ++ (regex, gen) :: post)%list false
     template
     = Site.generate gen template).
Proof.
  intros Hpre. unfold Site.get_context.
  split; [by apply get_context_loop_no_match|]. intros Hm.
  induction pre as [|[rx g] pre IH]; simpl.
  - rewrite Hm. destruct (Site.generate gen template) as [d|e]; [|done].
    by rewrite (right_id_L ∅ (∪)).
  - pose proof (Hpre (rx, g) ltac:(by left)) as Hrx. simpl in Hrx.
    rewrite Hrx. apply IH. intros p ?. apply Hpre. by right.
Qed.

Lemma get_context_first_match_witness :
  Site.get_context (Value := nat) literal_match id [] false "blog/post.html"
    = Ok ∅ ∧
  Site.get_context literal_match id site_contexts false "blog/post.html"
    = Ok (<["year" := 2015]> (<["posts" := 0]> ∅)).
Proof.
  destruct (get_context_first_match literal_match id [] (tl site_contexts) ""
              (Site.ContextDict (<["year" := 2015]> (<["posts" := 0]> ∅)))
              false "blog/post.html") as [H0 H1].
  - by intros ? ?%elem_of_nil.
  - split; [exact H0 | apply H1; reflexivity].
Defined.

(** With [mergecontexts], the contexts are merged in the order of the
    list.  An entry put after others is reached only when the others
    raise nothing; its regex is then tried, and only when the regex
    matches is its generator called: an entry that does not match
    changes nothing, whatever its generator would do; one that matches
    overrides the keys it generates and keeps the other keys of what
    the others give, or raises what its generator raises. *)
Theorem get_context_merge_last_wins {Template Value : Type}
    (re_match : string → string → result bool) (name : Template → string)
    (contexts : list (string * Site.context_generator Template Value))
    (regex : string) (gen : Site.context_generator Template Value)
    (template : Template) :
  Site.get_context re_match name (contexts ++ [(regex, gen)])%list true template
    = match Site.get_context re_match name contexts true template with
      | Raise e => Raise e
      | Ok context =>
          match re_match regex (name template) with
          | Raise e => Raise e
          | Ok false => Ok context
          | Ok true =>
              match Site.generate gen template with
              | Raise e => Raise e
              | Ok d => Ok (d ∪ context)
              end
          end
      end ∧
  ∀ (d context : gmap string Value) k,
    (d ∪ context) !! k =
    match d !! k with Some x => Some x | None => context !! k end.
Proof.
  unfold Site.get_context. split.
  - rewrite get_context_loop_app.
    destruct (Site.get_context_loop re_match name contexts true template ∅)
      as [context|e]; [|done]. simpl.
    destruct (re_match regex (name template)) as [[]|]; [|done..].
    by destruct (Site.generate gen template).
  - intros d context k. rewrite lookup_union.
    by destruct (d !! k), (context !! k).
Qed.

Lemma get_context_merge_last_wins_witness :
  Site.get_context literal_match id site_contexts true "blog/post.html"
    = Ok (<["posts" := 7]> (<["year" := 2015]> ∅)) ∧
  Site.get_context literal_match id
    [("", Site.ContextDict (<["year" := 2015]> ∅));
     ("blog/", Site.ContextFunction0 (λ _, Raise (ExternalError "no posts")))]
    true "index.html"
    = Ok (<["year" := 2015]> ∅).
Proof.
  split.
  - destruct (get_context_merge_last_wins literal_match id
                [hd ("", Site.ContextDict ∅) site_contexts] "blog/"
                (Site.ContextFunction0 (λ _, Ok (<["posts" := 7]> ∅)))
                "blog/post.html") as [H _].
    etrans; [exact H|]. vm_compute. reflexivity.
  - destruct (get_context_merge_last_wins literal_match id
                [("", Site.ContextDict (<["year" := 2015]> (∅ : gmap string nat)))]
                "blog/"
                (Site.ContextFunction0 (λ _, Raise (ExternalError "no posts")))
                "index.html") as [H _].
    etrans; [exact H|]. vm_compute. reflexivity.
Defined.
